(** * Backport tool: the cherry-pick engine and the commit-set resolver

    A shallow embedding of [assets/backport/github/github.go].

    The Go methods of [Client] talk to the hosting service through the
    go-github client.  Here every such request is a [Call]; a method is a
    program ([Prog]) that issues calls and continues with their replies,
    written in the order of the Go statements.  A model of the hosting
    service ([Remote], [handle]) answers the calls, so that a program can be
    run, its sequence of requests observed ([trace]) and every intermediate
    state of the repository inspected ([states]). *)

From Stdlib Require Import String List.
From stdpp Require Import gmap strings list fin_maps stringmap.

Open Scope string_scope.
Open Scope list_scope.
Open Scope stdpp_scope.

(** ** Data model (go-github structs; pointer fields are options) *)

(** [go_github.Tree]: only the hash is used by the tool. *)
Record Tree := { tree_SHA : option string }.

(** [go_github.Commit]: [Parents] is a slice of commits. *)
#[local] Unset Elimination Schemes.
Inductive Commit : Type :=
  mkCommit {
    SHA : option string;
    Message : option string;
    CTree : option Tree;
    Parents : list Commit
  }.
#[local] Set Elimination Schemes.

(** [go_github.RepositoryCommit], as returned by the listing, comparison and
    merge endpoints. *)
Record RepositoryCommit := { rc_SHA : option string }.

(** [go_github.Branch]. *)
Record Branch := {
  Name : option string;
  BCommit : option RepositoryCommit
}.

(** The nil-safe accessors of go-github. *)
Definition GetSHA (c : Commit) : string := default "" (SHA c).
Definition GetTree (c : Commit) : option Tree := CTree c.
Definition rc_GetSHA (rc : RepositoryCommit) : string := default "" (rc_SHA rc).

(** ** Outcomes of a Go call

    [Ok] is a nil error, [Err] a returned error, [Panic] a run-time panic
    (nil dereference, index out of range) that unwinds the caller. *)
Inductive error :=
| NotFound (msg : string)
| Errorf (msg : string)
| Conflict
| Unavailable.

Inductive result (A : Type) :=
| Ok (a : A)
| Err (e : error)
| Panic (why : string).
Arguments Ok {A} a.
Arguments Err {A} e.
Arguments Panic {A} why.

(** [trace.Wrap] keeps the error it wraps. *)
Definition Wrap (e : error) : error := e.

(** ** Requests to the hosting service *)

Inductive Call :=
| GetCommit (sha : string)
| CreateCommit (c : Commit)
| UpdateRef (ref sha : string) (force : bool)
| DeleteRef (ref : string)
| Merge (base head : string)
| CompareCommits (base head : string)
| ListCommits (sha : string) (page perPage : nat).

(** [Response.NextPage] is the only field of the response that is read. *)
Record Response := { NextPage : nat }.

Definition reply (c : Call) : Type :=
  match c with
  | GetCommit _ => Commit
  | CreateCommit _ => Commit
  | UpdateRef _ _ _ => unit
  | DeleteRef _ => unit
  | Merge _ _ => RepositoryCommit
  | CompareCommits _ _ => list RepositoryCommit
  | ListCommits _ _ _ => (list RepositoryCommit * Response)%type
  end.

(** A program issues a request and continues with its outcome. *)
Inductive Prog (A : Type) : Type :=
| Ret (a : A)
| Vis (c : Call) (k : result (reply c) -> Prog A).
Arguments Ret {A} a.
Arguments Vis {A} c k.

Fixpoint bind {A B} (p : Prog A) (f : A -> Prog B) : Prog B :=
  match p with
  | Ret a => f a
  | Vis c k => Vis c (fun r => bind (k r) f)
  end.

Definition call (c : Call) : Prog (result (reply c)) := Vis c Ret.

(** [x <- p ;; q]: the Go idiom
    [x, err := p; if err != nil { return ..., trace.Wrap(err) }; q]. *)
Definition andThen {A B} (p : Prog (result A)) (f : A -> Prog (result B))
  : Prog (result B) :=
  bind p (fun r =>
    match r with
    | Ok a => f a
    | Err e => Ret (Err (Wrap e))
    | Panic w => Ret (Panic w)
    end).

Notation "x <- p ;; q" := (andThen p (fun x => q))
  (at level 100, p at next level, right associativity).

(** Dereference of a pointer: nil panics. *)
Definition deref {A B} (o : option A) (f : A -> Prog (result B))
  : Prog (result B) :=
  match o with
  | Some a => f a
  | None => Ret (Panic "invalid memory address or nil pointer dereference")
  end.

(** ** The methods of [Client] *)

Definition perPage : nat := 100.
Definition branchRefPrefix : string := "refs/heads/".

Definition getCommit (sha : string) : Prog (result Commit) :=
  commit <- call (GetCommit sha) ;;
  Ret (Ok commit).

Definition createCommit (commitMessage : string) (tree : option Tree)
    (parent : Commit) : Prog (result string) :=
  commit <- call (CreateCommit
                    {| SHA := None; Message := Some commitMessage;
                       CTree := tree; Parents := [parent] |}) ;;
  Ret (Ok (GetSHA commit)).

Definition updateBranch (branchName sha : string) : Prog (result unit) :=
  let refName := branchRefPrefix +:+ branchName in
  _ <- call (UpdateRef refName sha true) ;;
  Ret (Ok tt).

Definition deleteBranch (branchName : string) : Prog (result unit) :=
  let refName := branchRefPrefix +:+ branchName in
  _ <- call (DeleteRef refName) ;;
  Ret (Ok tt).

Definition merge (base headCommitSHA : string) : Prog (result Commit) :=
  merge <- call (Merge base headCommitSHA) ;;
  mergeCommit <- getCommit (rc_GetSHA merge) ;;
  Ret (Ok mergeCommit).

Definition createSiblingCommit (branchName : string)
    (branchHeadCommit cherryParent : Commit) : Prog (result unit) :=
  let tree := GetTree branchHeadCommit in
  commitSHA <- createCommit "temp" tree cherryParent ;;
  _ <- updateBranch branchName commitSHA ;;
  Ret (Ok tt).

Definition cherryPickCommit (branchName : string)
    (cherryCommit headBranchCommit : Commit)
  : Prog (result (option Tree * string)) :=
  match Parents cherryCommit !! 0%nat with
  | None => Ret (Panic "index out of range [0] with length 0")
  | Some cherryParent =>
    _ <- createSiblingCommit branchName headBranchCommit cherryParent ;;
    deref (SHA cherryCommit) (fun cherrySHA =>
    merge <- merge branchName cherrySHA ;;
    let mergeTree := GetTree merge in
    deref (SHA headBranchCommit) (fun headSHA =>
    updatedCommit <- getCommit headSHA ;;
    deref (Message cherryCommit) (fun message =>
    sha <- createCommit message mergeTree updatedCommit ;;
    _ <- updateBranch branchName sha ;;
    Ret (Ok (mergeTree, sha)))))
  end.

(** The loop of [CherryPickCommitsOnBranch]; [headCommit] is the loop's
    variable, overwritten in place after every commit.  On an error the
    deferred [deleteBranch] runs (its own error is dropped) and the error is
    returned; a panic unwinds before any [defer] statement was reached. *)
Fixpoint pickCommits (branchName : string) (commits : list Commit)
    (headCommit : Commit) : Prog (result Commit) :=
  match commits with
  | [] => Ret (Ok headCommit)
  | cherryCommit :: rest =>
    bind (cherryPickCommit branchName cherryCommit headCommit) (fun r =>
      match r with
      | Ok (tree, sha) =>
        pickCommits branchName rest
          {| SHA := Some sha; Message := Message headCommit;
             CTree := tree; Parents := Parents headCommit |}
      | Err err =>
        bind (deleteBranch branchName) (fun _ => Ret (Err (Wrap err)))
      | Panic w => Ret (Panic w)
      end)
  end.

Definition CherryPickCommitsOnBranch (branch : Branch) (commits : list Commit)
  : Prog (result unit) :=
  match Name branch with
  | None => Ret (Err (NotFound "branch name does not exist."))
  | Some name =>
    deref (BCommit branch) (fun branchCommit =>
    match rc_SHA branchCommit with
    | None => Ret (Err (NotFound ("branch " +:+ name +:+ " HEAD does not exist.")))
    | Some headSHA =>
      headCommit <- getCommit headSHA ;;
      let branchName := name in
      _ <- pickCommits branchName commits headCommit ;;
      Ret (Ok tt)
    end)
  end.

(** The paging loop of [getBranchCommits].  The Go loop has no bound of its
    own (it ends when the service reports no next page); [fuel] bounds the
    number of pages requested, and [None] means the bound was reached. *)
Fixpoint listPages (fuel : nat) (branchName : string) (page : nat)
    (repoCommits : list RepositoryCommit)
  : Prog (option (result (list RepositoryCommit))) :=
  match fuel with
  | O => Ret None
  | S fuel' =>
    bind (call (ListCommits branchName page perPage)) (fun r =>
      match r with
      | Ok (currCommits, resp) =>
        let repoCommits := repoCommits ++ currCommits in
        if (NextPage resp =? 0)%nat then Ret (Some (Ok repoCommits))
        else listPages fuel' branchName (NextPage resp) repoCommits
      | Err err => Ret (Some (Err (Wrap err)))
      | Panic w => Ret (Some (Panic w))
      end)
  end.

Definition getBranchCommits (fuel : nat) (branchName : string)
  : Prog (option (result (list RepositoryCommit))) :=
  listPages fuel branchName 0 [].

Definition mergeCommitsUnsupported : error :=
  Errorf "merge commits are not supported.".

(** The inner and the outer [range] loop of [GetBranchCommits]; [commits] is
    the slice being appended to. *)
Fixpoint matchDiff (repoCommit : RepositoryCommit)
    (diffCommits : list RepositoryCommit) (commits : list Commit)
  : Prog (result (list Commit)) :=
  match diffCommits with
  | [] => Ret (Ok commits)
  | diffCommit :: rest =>
    if String.eqb (rc_GetSHA diffCommit) (rc_GetSHA repoCommit) then
      commit <- getCommit (rc_GetSHA repoCommit) ;;
      if negb (length (Parents commit) =? 1)%nat then
        Ret (Err mergeCommitsUnsupported)
      else matchDiff repoCommit rest (commits ++ [commit])
    else matchDiff repoCommit rest commits
  end.

Fixpoint collectCommits (repoCommits diffCommits : list RepositoryCommit)
    (commits : list Commit) : Prog (result (list Commit)) :=
  match repoCommits with
  | [] => Ret (Ok commits)
  | repoCommit :: rest =>
    commits' <- matchDiff repoCommit diffCommits commits ;;
    collectCommits rest diffCommits commits'
  end.

Definition GetBranchCommits (fuel : nat) (branchName : string)
  : Prog (option (result (list Commit))) :=
  bind (getBranchCommits fuel branchName) (fun r =>
    match r with
    | None => Ret None
    | Some (Err err) => Ret (Some (Err (Wrap err)))
    | Some (Panic w) => Ret (Some (Panic w))
    | Some (Ok repoCommits) =>
      bind (comparison <- call (CompareCommits "master" branchName) ;;
            collectCommits repoCommits comparison [])
           (fun r => Ret (Some r))
    end).

(** ** A model of the hosting service

    The repository held by the service: an append-only store of commits
    keyed by hash and the mutable refs.  What the service computes on its own
    side is given by oracles: the tree of an automatic merge ([None] is a
    conflict), the enumeration of the commits of a branch, and the
    comparison of two branches.  [faults] injects transport failures: each
    request consumes the head of the list and fails when it is [true]. *)
Record Remote := {
  objects : gmap string Commit;
  refs : gmap string string;
  automerge : string -> string -> option Tree;
  listing : string -> option (list RepositoryCommit);
  comparison : string -> string -> option (list RepositoryCommit);
  faults : list bool
}.

Definition with_faults (fs : list bool) (r : Remote) : Remote :=
  {| objects := objects r; refs := refs r; automerge := automerge r;
     listing := listing r; comparison := comparison r; faults := fs |}.

Definition with_repo (objs : gmap string Commit) (rfs : gmap string string)
    (r : Remote) : Remote :=
  {| objects := objs; refs := rfs; automerge := automerge r;
     listing := listing r; comparison := comparison r; faults := faults r |}.

(** A parent as the service stores and returns it: its hash only. *)
Definition stub (p : Commit) : Commit :=
  {| SHA := SHA p; Message := None; CTree := None; Parents := [] |}.

Definition stubOf (sha : string) : Commit :=
  {| SHA := Some sha; Message := None; CTree := None; Parents := [] |}.

(** One page of an enumeration; page 0 is the first page, like page 1. *)
Definition pageOf (l : list RepositoryCommit) (page size : nat)
  : list RepositoryCommit * Response :=
  let p := Nat.max page 1 in
  (take size (drop ((p - 1) * size) l),
   {| NextPage := if (p * size <? length l)%nat then S p else 0%nat |}).

(** The service's answer to a request that reached it.  Creating a commit
    always makes a new object under a hash not yet in the store; updating a
    ref does not check its target, so keeping refs valid is up to the client. *)
Definition serve (c : Call) (r : Remote) : result (reply c) * Remote :=
  match c as c0 return result (reply c0) * Remote with
  | GetCommit sha =>
    match objects r !! sha with
    | Some commit => (Ok commit, r)
    | None => (Err (NotFound sha), r)
    end
  | CreateCommit c =>
    let sha := fresh_string "c" (objects r) in
    let commit := {| SHA := Some sha; Message := Message c; CTree := CTree c;
                     Parents := map stub (Parents c) |} in
    (Ok commit, with_repo (<[sha := commit]> (objects r)) (refs r) r)
  | UpdateRef ref sha _ =>
    match refs r !! ref with
    | Some _ => (Ok tt, with_repo (objects r) (<[ref := sha]> (refs r)) r)
    | None => (Err (NotFound ref), r)
    end
  | DeleteRef ref =>
    match refs r !! ref with
    | Some _ => (Ok tt, with_repo (objects r) (delete ref (refs r)) r)
    | None => (Err (NotFound ref), r)
    end
  | Merge base head =>
    let ref := branchRefPrefix +:+ base in
    match refs r !! ref, objects r !! head with
    | Some tip, Some _ =>
      match automerge r tip head with
      | Some tree =>
        let sha := fresh_string "m" (objects r) in
        let commit := {| SHA := Some sha; Message := Some "Merge";
                         CTree := Some tree;
                         Parents := [stubOf tip; stubOf head] |} in
        (Ok {| rc_SHA := Some sha |},
         with_repo (<[sha := commit]> (objects r)) (<[ref := sha]> (refs r)) r)
      | None => (Err Conflict, r)
      end
    | None, _ => (Err (NotFound ref), r)
    | _, None => (Err (NotFound head), r)
    end
  | CompareCommits base head =>
    match comparison r base head with
    | Some commits => (Ok commits, r)
    | None => (Err (NotFound head), r)
    end
  | ListCommits sha page size =>
    match listing r sha with
    | Some commits => (Ok (pageOf commits page size), r)
    | None => (Err (NotFound sha), r)
    end
  end.

(** What the go-github client does before sending: [CreateCommit]
    dereferences the hash of every parent. *)
Definition precheck (c : Call) : option string :=
  match c with
  | CreateCommit c =>
    if forallb (fun p => bool_decide (is_Some (SHA p))) (Parents c) then None
    else Some "invalid memory address or nil pointer dereference"
  | _ => None
  end.

Definition handle (c : Call) (r : Remote) : result (reply c) * Remote :=
  match precheck c with
  | Some why => (Panic why, r)
  | None =>
    match faults r with
    | true :: fs => (Err Unavailable, with_faults fs r)
    | false :: fs => serve c (with_faults fs r)
    | [] => serve c r
    end
  end.

(** ** Running a program against the service *)

(** A request together with its outcome. *)
Definition Entry : Type := { c : Call & result (reply c) }.
Definition entry (c : Call) (o : result (reply c)) : Entry := existT c o.

Fixpoint run {A} (p : Prog A) (r : Remote) : A * Remote :=
  match p with
  | Ret a => (a, r)
  | Vis c k => let '(o, r') := handle c r in run (k o) r'
  end.

(** The requests issued, in order, with their outcomes. *)
Fixpoint trace {A} (p : Prog A) (r : Remote) : list Entry :=
  match p with
  | Ret _ => []
  | Vis c k => let '(o, r') := handle c r in entry c o :: trace (k o) r'
  end.

(** The state of the service after each request. *)
Fixpoint states {A} (p : Prog A) (r : Remote) : list Remote :=
  match p with
  | Ret _ => []
  | Vis c k => let '(o, r') := handle c r in r' :: states (k o) r'
  end.


(** ** Commit graphs *)

(** [reachable objs s t]: the commit [t] is [s] or one of its ancestors,
    following the parent hashes of the commits held in [objs]. *)
Inductive reachable (objs : gmap string Commit) : string -> string -> Prop :=
| reach_here s : reachable objs s s
| reach_parent s c p ps t :
    objs !! s = Some c -> p ∈ Parents c -> SHA p = Some ps ->
    reachable objs ps t -> reachable objs s t.

(** A store is keyed by hash when every commit is held under its own hash,
    and closed when the parents of its commits are in it too. *)
Definition keyed (objs : gmap string Commit) : Prop :=
  ∀ k c, objs !! k = Some c -> SHA c = Some k.

Definition closed (objs : gmap string Commit) : Prop :=
  ∀ k c p, objs !! k = Some c -> p ∈ Parents c ->
    ∃ ps, SHA p = Some ps ∧ is_Some (objs !! ps).

(** Every ref points at a commit of the store. *)
Definition refs_valid (r : Remote) : Prop :=
  ∀ ref sha, refs r !! ref = Some sha -> is_Some (objects r !! sha).

(** ** The scenario of the specification

    Mainline has commit A; the source branch is A, B ("Fix bug"),
    C ("Add test"); the target branch "release" starts at the unrelated
    commit D. *)
Module Scenario.
Definition tree (s : string) : option Tree := Some {| tree_SHA := Some s |}.
Definition summary (s : string) : RepositoryCommit := {| rc_SHA := Some s |}.

Definition cA : Commit :=
  {| SHA := Some "A"; Message := Some "Initial"; CTree := tree "T0";
     Parents := [] |}.
Definition cB : Commit :=
  {| SHA := Some "B"; Message := Some "Fix bug"; CTree := tree "T1";
     Parents := [stubOf "A"] |}.
Definition cC : Commit :=
  {| SHA := Some "C"; Message := Some "Add test"; CTree := tree "T2";
     Parents := [stubOf "B"] |}.
Definition cD : Commit :=
  {| SHA := Some "D"; Message := Some "Release"; CTree := tree "Td";
     Parents := [] |}.

Definition store : gmap string Commit :=
  <["A" := cA]> (<["B" := cB]> (<["C" := cC]> (<["D" := cD]> ∅))).

Definition heads : gmap string string :=
  <["refs/heads/master" := "A"]>
    (<["refs/heads/feature" := "C"]> (<["refs/heads/release" := "D"]> ∅)).

(** The service merges everything but a head listed in [conflicting];
    the merged tree is named after the two sides. *)
Definition merges (conflicting : list string) (tip head : string)
  : option Tree :=
  if bool_decide (head ∈ conflicting) then None
  else Some {| tree_SHA := Some (tip +:+ "+" +:+ head) |}.

Definition remote (conflicting : list string) (fs : list bool) : Remote :=
  {| objects := store;
     refs := heads;
     automerge := merges conflicting;
     listing := fun b =>
       if String.eqb b "feature"
       then Some [summary "A"; summary "B"; summary "C"] else None;
     comparison := fun base head =>
       if String.eqb base "master" && String.eqb head "feature"
       then Some [summary "B"; summary "C"] else None;
     faults := fs |}.

Definition release : Branch :=
  {| Name := Some "release"; BCommit := Some (summary "D") |}.
End Scenario.

(** ** Ref updates in a trace *)

(** [creates e sha]: the entry [e] is a commit creation that succeeded and
    reported the hash [sha]. *)
Definition creates (e : Entry) (sha : string) : Prop :=
  ∃ c commit, e = entry (CreateCommit c) (Ok commit) ∧ GetSHA commit = sha.

(** Every ref update of the trace comes right after the creation of the
    commit it points the ref at; [prev] is the entry before the trace. *)
Fixpoint updates_follow_creation (prev : option Entry) (t : list Entry)
  : Prop :=
  match t with
  | [] => True
  | e :: t' =>
    match projT1 e with
    | UpdateRef _ sha _ => ∃ p, prev = Some p ∧ creates p sha
    | _ => True
    end
    ∧ updates_follow_creation (Some e) t'
  end.

(** Observations on a trace entry. *)
Definition entry_call (e : Entry) : Call := projT1 e.

Definition entry_ok (e : Entry) : bool :=
  match projT2 e with
  | Ok _ => true
  | _ => false
  end.

(** [only_sibling_update t]: every ref update that succeeded in the trace
    [t] of one step points the ref at the commit created with the message
    "temp" by the first request of [t], the throw-away sibling. *)
Definition only_sibling_update (t : list Entry) : Prop :=
  Forall (λ e, ∀ ref sha f,
            entry_call e = UpdateRef ref sha f -> entry_ok e = true ->
            ∃ c sibling,
              t !! 0%nat = Some (entry (CreateCommit c) (Ok sibling))
              ∧ Message c = Some "temp" ∧ sha = GetSHA sibling) t.

(** The scenario with a conflict: the service cannot merge C.  [afterB] is
    the loop variable and the repository once B is replayed. *)
Module Conflicting.
Import Scenario.

Definition start : Remote := remote ["C"] [].

Definition afterB : Commit * Remote :=
  ({| SHA := Some "c0"; Message := Message cD; CTree := tree "c+B";
      Parents := Parents cD |},
   snd (run (pickCommits "release" [cB] cD) start)).

Definition failedC : Remote :=
  snd (run (cherryPickCommit "release" cC (fst afterB)) (snd afterB)).

Definition deletion : Call := DeleteRef (branchRefPrefix +:+ "release").
End Conflicting.

(** ** Requests a program can issue *)

(** [always P p]: every request [p] can issue, whatever the outcomes of the
    requests before it, satisfies [P]. *)
Fixpoint always {A} (P : Call -> Prop) (p : Prog A) : Prop :=
  match p with
  | Ret _ => True
  | Vis c k => P c ∧ ∀ o, always P (k o)
  end.


(** The run-time panics of Go that the client can raise. *)
Definition indexOutOfRange : string := "index out of range [0] with length 0".
Definition nilDereference : string :=
  "invalid memory address or nil pointer dereference".

(** ** What the resolver selects *)

(** The hashes for which the two nested [range] loops of [GetBranchCommits]
    fetch a commit: the hash of every listed commit, once per commit of the
    comparison that carries the same hash, in the order of the listing. *)
Fixpoint matchesOf (repoCommit : RepositoryCommit)
    (diffCommits : list RepositoryCommit) : list string :=
  match diffCommits with
  | [] => []
  | diffCommit :: rest =>
    if String.eqb (rc_GetSHA diffCommit) (rc_GetSHA repoCommit)
    then rc_GetSHA repoCommit :: matchesOf repoCommit rest
    else matchesOf repoCommit rest
  end.

Definition selected (repoCommits diffCommits : list RepositoryCommit)
  : list string :=
  flat_map (λ repoCommit, matchesOf repoCommit diffCommits) repoCommits.

(** [stored objs shas cs]: the store holds [cs], in order, under [shas]. *)
Definition stored (objs : gmap string Commit) (shas : list string)
    (cs : list Commit) : Prop :=
  Forall2 (λ sha c, objs !! sha = Some c) shas cs.

Definition singleParent (c : Commit) : bool :=
  (length (Parents c) =? 1)%nat.

(** A source branch with a merge commit: "merged" is A, B, then M, which
    merges D into B. *)
Module Merged.
Import Scenario.

Definition cM : Commit :=
  {| SHA := Some "M"; Message := Some "Merge release"; CTree := tree "T3";
     Parents := [stubOf "B"; stubOf "D"] |}.

Definition start : Remote :=
  {| objects := <["M" := cM]> store;
     refs := <["refs/heads/merged" := "M"]> heads;
     automerge := merges [];
     listing := fun b =>
       if String.eqb b "merged"
       then Some [summary "A"; summary "B"; summary "M"] else None;
     comparison := fun base head =>
       if String.eqb base "master" && String.eqb head "merged"
       then Some [summary "B"; summary "M"] else None;
     faults := [] |}.
End Merged.

(** ** Linear branches *)

(** The summary under which the service lists a commit. *)
Definition summaryOf (c : Commit) : RepositoryCommit := {| rc_SHA := SHA c |}.

(** [linear objs base cs]: [cs] is a chain of stored single-parent commits,
    oldest first: the parent of the first one is [base] and the parent of
    every other one is the commit before it. *)
Fixpoint linear (objs : gmap string Commit) (base : string)
    (cs : list Commit) : Prop :=
  match cs with
  | [] => True
  | c :: rest =>
    ∃ s p, SHA c = Some s ∧ objs !! s = Some c ∧ Parents c = [p]
           ∧ SHA p = Some base ∧ linear objs s rest
  end.

(** The head of a branch made of the chain [cs] on top of [base]. *)
Fixpoint tipOf (base : string) (cs : list Commit) : string :=
  match cs with
  | [] => base
  | c :: rest => tipOf (GetSHA c) rest
  end.

(** ** The repository seen by a request *)

(** [same_repo r r0]: the states [r] and [r0] hold the same repository and
    oracles; they may differ in the faults still to come. *)
Definition same_repo (r r0 : Remote) : Prop :=
  objects r0 = objects r ∧ refs r0 = refs r ∧ automerge r0 = automerge r
  ∧ listing r0 = listing r ∧ comparison r0 = comparison r.

(** ** What a replay leaves in the store *)

(** [scaffold objs cherry (s1, s2)]: the store holds the two throw-away
    commits made while replaying [cherry]: under [s1] the sibling commit
    (message "temp", the first parent of [cherry] as parent), under [s2] the
    merge commit of the sibling and [cherry]. *)
Definition scaffold (objs : gmap string Commit) (cherry : Commit)
    (temps : string * string) : Prop :=
  ∃ sibling mergeCommit,
    objs !! temps.1 = Some sibling
    ∧ Message sibling = Some "temp"
    ∧ Parents sibling = map stub (take 1 (Parents cherry))
    ∧ objs !! temps.2 = Some mergeCommit
    ∧ Parents mergeCommit = [stubOf temps.1; stubOf (GetSHA cherry)].

(** [grounded objs s]: the whole history of [s] is in the store. *)
Definition grounded (objs : gmap string Commit) (s : string) : Prop :=
  ∀ t, reachable objs s t -> is_Some (objs !! t).

(** The scenario once B and C are replayed onto "release". *)
Module Replayed.
Import Scenario.

Definition start : Remote := remote [] [].

Definition finished : Remote :=
  snd (run (CherryPickCommitsOnBranch release [cB; cC]) start).
End Replayed.

(** ** What a request asks for *)

(** The ref a request asks the service to write, if any. *)
Definition written (c : Call) : option string :=
  match c with
  | UpdateRef ref _ _ => Some ref
  | DeleteRef ref => Some ref
  | Merge base _ => Some (branchRefPrefix +:+ base)
  | _ => None
  end.

Definition writes_only (ref : string) (c : Call) : Prop :=
  ∀ x, written c = Some x -> x = ref.

(** The requests that only read the repository. *)
Definition reads (c : Call) : Prop :=
  match c with
  | GetCommit _ | CompareCommits _ _ | ListCommits _ _ _ => True
  | _ => False
  end.

(** A commit the replay can dereference: it has a first parent, a hash and
    a message. *)
Definition complete (c : Commit) : Prop :=
  Parents c ≠ [] ∧ is_Some (SHA c) ∧ is_Some (Message c).

(** The scenario on a service that enumerates a branch newest first. *)
Module NewestFirst.
Import Scenario.

Definition start : Remote :=
  {| objects := store;
     refs := heads;
     automerge := merges [];
     listing := fun b =>
       if String.eqb b "feature"
       then Some [summary "C"; summary "B"; summary "A"] else None;
     comparison := fun base head =>
       if String.eqb base "master" && String.eqb head "feature"
       then Some [summary "B"; summary "C"] else None;
     faults := [] |}.
End NewestFirst.
(** ** Properties of the embedding *)

Section Running.
Context {A B : Type}.
Implicit Types (p : Prog A) (f : A -> Prog B) (r : Remote).

Lemma run_bind p f r :
  run (bind p f) r = run (f (fst (run p r))) (snd (run p r)).
Proof.
  revert r. induction p as [a | c k IH]; intros r; simpl; [done |].
  destruct (handle c r) as [o r']. apply IH.
Qed.

Lemma trace_bind p f r :
  trace (bind p f) r
  = trace p r ++ trace (f (fst (run p r))) (snd (run p r)).
Proof.
  revert r. induction p as [a | c k IH]; intros r; simpl; [done |].
  destruct (handle c r) as [o r']. simpl. by rewrite IH.
Qed.

Lemma states_bind p f r :
  states (bind p f) r
  = states p r ++ states (f (fst (run p r))) (snd (run p r)).
Proof.
  revert r. induction p as [a | c k IH]; intros r; simpl; [done |].
  destruct (handle c r) as [o r']. simpl. by rewrite IH.
Qed.
End Running.

Lemma with_faults_same r : with_faults (faults r) r = r.
Proof. by destruct r. Qed.

(** A request that no injected fault hits is answered by [serve]. *)
Lemma handle_no_fault c r :
  precheck c = None -> head (faults r) ≠ Some true ->
  handle c r = serve c (with_faults (tail (faults r)) r).
Proof.
  intros Hp Hf. unfold handle. rewrite Hp.
  destruct (faults r) as [|[] fs] eqn:E; simpl in *; try done.
  by rewrite <- E, with_faults_same.
Qed.

(** ** Claims *)

(** C10: when the branch handed to [CherryPickCommitsOnBranch] has no name,
    or has a name but no head hash, the function returns a NotFound error
    without sending a single request: nothing is created, no ref is moved or
    deleted, and the repository is left as it was. *)
Theorem CherryPickCommitsOnBranch_rejects_incomplete_branch
    (branch : Branch) (commits : list Commit) (r : Remote) :
  (Name branch = None ∨
   ∃ rc, BCommit branch = Some rc ∧ rc_SHA rc = None) ->
  ∃ msg,
    run (CherryPickCommitsOnBranch branch commits) r = (Err (NotFound msg), r)
    ∧ trace (CherryPickCommitsOnBranch branch commits) r = []
    ∧ states (CherryPickCommitsOnBranch branch commits) r = [].
Proof.
  unfold CherryPickCommitsOnBranch.
  intros [Hn | (rc & Hc & Hs)].
  - rewrite Hn. by eexists.
  - destruct (Name branch) as [name|]; [| by eexists].
    rewrite Hc. simpl. rewrite Hs. by eexists.
Qed.

Lemma CherryPickCommitsOnBranch_rejects_incomplete_branch_witness :
  ∃ msg,
    run (CherryPickCommitsOnBranch
           {| Name := Some "release"; BCommit := Some {| rc_SHA := None |} |}
           [Scenario.cB; Scenario.cC]) (Scenario.remote [] [])
    = (Err (NotFound msg), Scenario.remote [] [])
    ∧ trace (CherryPickCommitsOnBranch
           {| Name := Some "release"; BCommit := Some {| rc_SHA := None |} |}
           [Scenario.cB; Scenario.cC]) (Scenario.remote [] []) = []
    ∧ states (CherryPickCommitsOnBranch
           {| Name := Some "release"; BCommit := Some {| rc_SHA := None |} |}
           [Scenario.cB; Scenario.cC]) (Scenario.remote [] []) = [].
Proof.
  apply CherryPickCommitsOnBranch_rejects_incomplete_branch.
  right. eexists. split; reflexivity.
Defined.

(** C6: replaying the empty list onto a branch whose head commit exists
    returns no error; the only request is the initial read of the head
    commit, so no commit is created, no ref is updated or deleted, and the
    commits and refs of the repository (the branch head among them) are
    what they were. *)
Theorem CherryPickCommitsOnBranch_empty_list
    (branch : Branch) (name headSHA : string) (hc : Commit) (r : Remote) :
  Name branch = Some name ->
  BCommit branch = Some {| rc_SHA := Some headSHA |} ->
  objects r !! headSHA = Some hc ->
  head (faults r) ≠ Some true ->
  fst (run (CherryPickCommitsOnBranch branch []) r) = Ok tt
  ∧ trace (CherryPickCommitsOnBranch branch []) r
    = [entry (GetCommit headSHA) (Ok hc)]
  ∧ objects (snd (run (CherryPickCommitsOnBranch branch []) r)) = objects r
  ∧ refs (snd (run (CherryPickCommitsOnBranch branch []) r)) = refs r.
Proof.
  intros Hn Hc Ho Hf. unfold CherryPickCommitsOnBranch.
  rewrite Hn, Hc. simpl.
  rewrite handle_no_fault by done. simpl. rewrite Ho. done.
Qed.

Lemma CherryPickCommitsOnBranch_empty_list_witness :
  fst (run (CherryPickCommitsOnBranch Scenario.release [])
         (Scenario.remote [] [])) = Ok tt
  ∧ trace (CherryPickCommitsOnBranch Scenario.release [])
      (Scenario.remote [] [])
    = [entry (GetCommit "D") (Ok Scenario.cD)]
  ∧ objects (snd (run (CherryPickCommitsOnBranch Scenario.release [])
                    (Scenario.remote [] []))) = Scenario.store
  ∧ refs (snd (run (CherryPickCommitsOnBranch Scenario.release [])
                 (Scenario.remote [] []))) = Scenario.heads.
Proof.
  apply (CherryPickCommitsOnBranch_empty_list Scenario.release "release" "D"
           Scenario.cD (Scenario.remote [] [])); try reflexivity.
  simpl. discriminate.
Defined.

(** ** Symbolic execution of one request *)

(** Case analysis on the outcome of the next request of the goal. *)
Ltac next_request :=
  match goal with
  | |- context [handle ?c ?r] =>
    let o := fresh "o" in
    let r' := fresh "r" in
    let E := fresh "E" in
    destruct (handle c r) as [o r'] eqn:E; destruct o; simpl
  end.

Ltac unfold_client :=
  unfold cherryPickCommit, createSiblingCommit, merge, createCommit,
    updateBranch, deleteBranch, getCommit, andThen, deref, call, Wrap.

(** C4: a successful replay of one commit sends exactly seven requests, in
    this order: create the sibling commit (message "temp", the tree of the
    current head, the cherry-pick commit's first parent as sole parent);
    point the branch ref at the sibling; merge the cherry-pick commit into
    the branch (the merge request, then the read of the merge commit it
    reports, which is what the [merge] helper does); re-read the head commit
    the step started from; create the final commit (the cherry-pick commit's
    message, the merge commit's tree, the re-read head as sole parent); point
    the branch ref at the final commit.  The step returns the merge tree and
    the hash of the final commit. *)
Theorem cherryPickCommit_request_sequence
    (branchName : string) (cherryCommit headBranchCommit : Commit)
    (r : Remote) (tree : option Tree) (sha : string) :
  fst (run (cherryPickCommit branchName cherryCommit headBranchCommit) r)
  = Ok (tree, sha) ->
  ∃ cherryParent cherrySHA headSHA message sibling merged mergeCommit
    updatedCommit final,
    Parents cherryCommit !! 0%nat = Some cherryParent
    ∧ SHA cherryCommit = Some cherrySHA
    ∧ SHA headBranchCommit = Some headSHA
    ∧ Message cherryCommit = Some message
    ∧ trace (cherryPickCommit branchName cherryCommit headBranchCommit) r
      = [ entry (CreateCommit
                   {| SHA := None; Message := Some "temp";
                      CTree := GetTree headBranchCommit;
                      Parents := [cherryParent] |}) (Ok sibling);
          entry (UpdateRef (branchRefPrefix +:+ branchName)
                   (GetSHA sibling) true) (Ok tt);
          entry (Merge branchName cherrySHA) (Ok merged);
          entry (GetCommit (rc_GetSHA merged)) (Ok mergeCommit);
          entry (GetCommit headSHA) (Ok updatedCommit);
          entry (CreateCommit
                   {| SHA := None; Message := Some message;
                      CTree := GetTree mergeCommit;
                      Parents := [updatedCommit] |}) (Ok final);
          entry (UpdateRef (branchRefPrefix +:+ branchName)
                   (GetSHA final) true) (Ok tt) ]
    ∧ tree = GetTree mergeCommit
    ∧ sha = GetSHA final.
Proof.
  unfold_client.
  destruct (Parents cherryCommit !! 0%nat) as [cherryParent|]; [| done].
  simpl. next_request; try done.
  next_request; try done.
  destruct (SHA cherryCommit) as [cherrySHA|]; [| done].
  simpl. next_request; try done.
  next_request; try done.
  destruct (SHA headBranchCommit) as [headSHA|]; [| done].
  simpl. next_request; try done.
  destruct (Message cherryCommit) as [message|]; [| done].
  simpl. next_request; try done.
  next_request; try done.
  intros [= <- <-].
  repeat match goal with
         | u : reply (UpdateRef _ _ _) |- _ => simpl in u; destruct u
         end.
  by eexists _, _, _, _, _, _, _, _, _.
Qed.

Lemma cherryPickCommit_request_sequence_witness :
  ∃ cherryParent cherrySHA headSHA message sibling merged mergeCommit
    updatedCommit final,
    Parents Scenario.cB !! 0%nat = Some cherryParent
    ∧ SHA Scenario.cB = Some cherrySHA
    ∧ SHA Scenario.cD = Some headSHA
    ∧ Message Scenario.cB = Some message
    ∧ trace (cherryPickCommit "release" Scenario.cB Scenario.cD)
        (Scenario.remote [] [])
      = [ entry (CreateCommit
                   {| SHA := None; Message := Some "temp";
                      CTree := GetTree Scenario.cD;
                      Parents := [cherryParent] |}) (Ok sibling);
          entry (UpdateRef (branchRefPrefix +:+ "release")
                   (GetSHA sibling) true) (Ok tt);
          entry (Merge "release" cherrySHA) (Ok merged);
          entry (GetCommit (rc_GetSHA merged)) (Ok mergeCommit);
          entry (GetCommit headSHA) (Ok updatedCommit);
          entry (CreateCommit
                   {| SHA := None; Message := Some message;
                      CTree := GetTree mergeCommit;
                      Parents := [updatedCommit] |}) (Ok final);
          entry (UpdateRef (branchRefPrefix +:+ "release")
                   (GetSHA final) true) (Ok tt) ]
    ∧ Scenario.tree "c+B" = GetTree mergeCommit
    ∧ "c0" = GetSHA final.
Proof.
  apply (cherryPickCommit_request_sequence "release" Scenario.cB Scenario.cD
           (Scenario.remote [] []) (Scenario.tree "c+B") "c0").
  vm_compute. reflexivity.
Defined.

(** ** The model of the service: what a request does to the repository *)

(** A request either never reaches the service (client-side panic, injected
    fault) and leaves the repository alone, or is served on a state with the
    same repository and oracles. *)
Lemma same_repo_refl r : same_repo r r.
Proof. by repeat split. Qed.

Lemma handle_inv c r :
  ∃ r0, same_repo r r0
    ∧ (handle c r = serve c r0
       ∨ (snd (handle c r) = r0 ∧ ∀ a, fst (handle c r) ≠ Ok a)).
Proof.
  unfold handle. destruct (precheck c).
  - exists r. split; [apply same_repo_refl | by right].
  - destruct (faults r) as [|[] fs].
    + exists r. split; [apply same_repo_refl | by left].
    + exists (with_faults fs r). split; [done | by right].
    + exists (with_faults fs r). split; [done | by left].
Qed.

Lemma serve_same_oracles c r :
  automerge (snd (serve c r)) = automerge r
  ∧ listing (snd (serve c r)) = listing r
  ∧ comparison (snd (serve c r)) = comparison r.
Proof.
  destruct c; simpl; repeat case_match; done.
Qed.

(** The store only grows: a stored commit stays what it is. *)
Lemma serve_objects_mono c r k v :
  objects r !! k = Some v -> objects (snd (serve c r)) !! k = Some v.
Proof.
  intros Hk. destruct c; simpl; repeat case_match; simpl; try done.
  - rewrite lookup_insert_ne; [done |].
    intros <-. by rewrite fresh_string_fresh in Hk.
  - rewrite lookup_insert_ne; [done |].
    intros <-. by rewrite fresh_string_fresh in Hk.
Qed.

Lemma handle_objects_mono c r k v :
  objects r !! k = Some v -> objects (snd (handle c r)) !! k = Some v.
Proof.
  intros Hk. destruct (handle_inv c r) as (r0 & (Ho & _) & [-> | [-> _]]).
  - apply serve_objects_mono. by rewrite Ho.
  - by rewrite Ho.
Qed.

(** A served request keeps every ref valid, provided that the target of an
    update is in the store. *)
Lemma serve_refs_valid c r :
  refs_valid r ->
  (∀ ref sha f, c = UpdateRef ref sha f -> is_Some (objects r !! sha)) ->
  refs_valid (snd (serve c r)).
Proof.
  intros Hv Hu. destruct c; simpl; repeat case_match; simpl; try done.
  - intros rf tgt Htgt. simpl in *. apply Hv in Htgt as [v Htgt].
    exists v. rewrite lookup_insert_ne; [done |].
    intros <-. by rewrite fresh_string_fresh in Htgt.
  - intros rf tgt. simpl. rewrite lookup_insert.
    case_decide; [intros [= <-]; by eapply Hu | apply Hv].
  - intros rf tgt. simpl. intros Htgt.
    apply lookup_delete_Some in Htgt as [_ Htgt]. by apply Hv in Htgt.
  - intros rf tgt. simpl. rewrite lookup_insert.
    case_decide.
    + intros [= <-]. rewrite lookup_insert_eq. by eexists.
    + intros Htgt. apply Hv in Htgt as [v Htgt].
      exists v. rewrite lookup_insert_ne; [done |].
      intros <-. by rewrite fresh_string_fresh in Htgt.
Qed.

Lemma refs_valid_same r r0 : same_repo r r0 -> refs_valid r -> refs_valid r0.
Proof. intros (Ho & Hr & _) Hv ref s. rewrite Ho, Hr. apply Hv. Qed.

Lemma handle_refs_valid c r :
  refs_valid r ->
  (∀ ref sha f, c = UpdateRef ref sha f -> is_Some (objects r !! sha)) ->
  refs_valid (snd (handle c r)).
Proof.
  intros Hv Hu. destruct (handle_inv c r) as (r0 & Hs & [-> | [-> _]]).
  - apply serve_refs_valid; [by eapply refs_valid_same |].
    intros ref sha f Hc. destruct Hs as (-> & _). by eapply Hu.
  - by eapply refs_valid_same.
Qed.

(** A created commit is in the store under the hash the reply carries. *)
Lemma handle_CreateCommit_stored c r commit r' :
  handle (CreateCommit c) r = (Ok commit, r') ->
  objects r' !! GetSHA commit = Some commit
  ∧ objects r !! GetSHA commit = None
  ∧ refs r' = refs r
  ∧ commit = {| SHA := Some (GetSHA commit); Message := Message c;
                CTree := CTree c; Parents := map stub (Parents c) |}
  ∧ objects r' = <[GetSHA commit := commit]> (objects r).
Proof.
  intros H. destruct (handle_inv (CreateCommit c) r)
    as (r0 & (Ho & Hr & _) & [E | [_ E]]).
  - rewrite E in H. simpl in H. injection H as <- <-. simpl.
    rewrite lookup_insert_eq, <- Ho, Hr.
    split_and!; try done. apply fresh_string_fresh.
  - rewrite H in E. by destruct (E commit).
Qed.

(** ** Ref updates *)

Lemma updates_follow_creation_app prev t1 t2 :
  updates_follow_creation prev t1 ->
  (∀ p, updates_follow_creation p t2) ->
  updates_follow_creation prev (t1 ++ t2).
Proof.
  revert prev. induction t1 as [|e t1 IH]; intros prev H1 H2; simpl.
  - apply H2.
  - destruct H1 as [He H1]. split; [done | by apply IH].
Qed.

Ltac close_updates :=
  intros; simpl; repeat split;
  try (eexists; split; [reflexivity | by eexists _, _]).

Lemma cherryPickCommit_updates branchName cherryCommit headBranchCommit r p :
  updates_follow_creation p
    (trace (cherryPickCommit branchName cherryCommit headBranchCommit) r).
Proof.
  revert p. unfold_client.
  destruct (Parents cherryCommit !! 0%nat) as [cherryParent|]; [| done].
  simpl. next_request; [| close_updates ..].
  next_request; [| close_updates ..].
  destruct (SHA cherryCommit) as [cherrySHA|]; [| close_updates].
  simpl. next_request; [| close_updates ..].
  next_request; [| close_updates ..].
  destruct (SHA headBranchCommit) as [headSHA|]; [| close_updates].
  simpl. next_request; [| close_updates ..].
  destruct (Message cherryCommit) as [message|]; [| close_updates].
  simpl. next_request; [| close_updates ..].
  next_request; close_updates.
Qed.

Lemma pickCommits_updates branchName commits headCommit r p :
  updates_follow_creation p (trace (pickCommits branchName commits headCommit) r).
Proof.
  revert headCommit r p.
  induction commits as [|c rest IH]; intros headCommit r p; simpl; [done |].
  rewrite trace_bind. apply updates_follow_creation_app.
  - apply cherryPickCommit_updates.
  - intros q. destruct (fst (run _ r)) as [[tree sha]|e|w]; simpl.
    + apply IH.
    + unfold_client. simpl. by destruct (handle _ _) as [[]].
    + done.
Qed.

Lemma step_valid c r o r' :
  handle c r = (o, r') -> refs_valid r ->
  (∀ ref sha f, c = UpdateRef ref sha f -> is_Some (objects r !! sha)) ->
  refs_valid r'.
Proof.
  intros E Hv Hu. replace r' with (snd (handle c r)) by by rewrite E.
  by apply handle_refs_valid.
Qed.

(** Derives the validity of the refs after the request just analysed. *)
Ltac valid_step :=
  match goal with
  | E : handle ?c ?r = (_, ?r'), V : refs_valid ?r |- _ =>
    lazymatch goal with
    | _ : refs_valid r' |- _ => fail
    | _ =>
      assert (refs_valid r')
        by (eapply (step_valid _ _ _ _ E V);
            first [ by intros ??? [=]
                  | intros ??? [= <- <- <-];
                    match goal with
                    | C : handle (CreateCommit _) _ = (Ok _, r) |- _ =>
                      apply handle_CreateCommit_stored in C as (C & _);
                      eexists; exact C
                    end ])
    end
  end.

Ltac valid_leaf :=
  simpl; split; [repeat constructor; assumption | assumption].

Lemma cherryPickCommit_refs_valid branchName cherryCommit headBranchCommit r :
  refs_valid r ->
  Forall refs_valid
    (states (cherryPickCommit branchName cherryCommit headBranchCommit) r)
  ∧ refs_valid
      (snd (run (cherryPickCommit branchName cherryCommit headBranchCommit) r)).
Proof.
  intros V. unfold_client.
  destruct (Parents cherryCommit !! 0%nat) as [cherryParent|]; [| by split].
  simpl. next_request; valid_step; [| valid_leaf ..].
  next_request; valid_step; [| valid_leaf ..].
  destruct (SHA cherryCommit) as [cherrySHA|]; [| valid_leaf].
  simpl. next_request; valid_step; [| valid_leaf ..].
  next_request; valid_step; [| valid_leaf ..].
  destruct (SHA headBranchCommit) as [headSHA|]; [| valid_leaf].
  simpl. next_request; valid_step; [| valid_leaf ..].
  destruct (Message cherryCommit) as [message|]; [| valid_leaf].
  simpl. next_request; valid_step; [| valid_leaf ..].
  next_request; valid_step; valid_leaf.
Qed.

Lemma pickCommits_refs_valid branchName commits headCommit r :
  refs_valid r ->
  Forall refs_valid (states (pickCommits branchName commits headCommit) r)
  ∧ refs_valid (snd (run (pickCommits branchName commits headCommit) r)).
Proof.
  revert headCommit r.
  induction commits as [|c rest IH]; intros headCommit r V; simpl; [by split |].
  rewrite states_bind, run_bind.
  destruct (cherryPickCommit_refs_valid branchName c headCommit r V)
    as [Hs Hr].
  rewrite Forall_app.
  destruct (fst (run (cherryPickCommit branchName c headCommit) r))
    as [[tree sha]|e|w]; simpl.
  - destruct (IH {| SHA := Some sha; Message := Message headCommit;
                    CTree := tree; Parents := Parents headCommit |} _ Hr).
    by split_and!.
  - unfold_client. simpl.
    destruct (handle _ _) as [o r'] eqn:E.
    assert (refs_valid r') by (eapply (step_valid _ _ _ _ E Hr); by intros ??? [=]).
    destruct o; simpl; split_and!; try done; by repeat constructor.
  - by split_and!.
Qed.

(** C7: in every run of [CherryPickCommitsOnBranch], whatever the service
    answers, each update of a ref comes immediately after a successful
    commit creation and points the ref at the hash that creation returned.
    As a consequence, when every ref of the repository points at a stored
    commit before the run, this is so after each single request of the
    run: at no instant does a ref point at an object that does not exist
    (the service model does not check the target of an update, so this is
    due to the order of the client's requests). *)
Theorem branch_ref_always_points_at_created_commit
    (branch : Branch) (commits : list Commit) (r : Remote) :
  updates_follow_creation None
    (trace (CherryPickCommitsOnBranch branch commits) r)
  ∧ (refs_valid r ->
     Forall refs_valid (states (CherryPickCommitsOnBranch branch commits) r)).
Proof.
  unfold CherryPickCommitsOnBranch.
  destruct (Name branch) as [name|]; [| by split].
  destruct (BCommit branch) as [rc|]; [| by split]. simpl.
  destruct (rc_SHA rc) as [headSHA|]; [| by split].
  unfold getCommit, andThen, call. simpl.
  destruct (handle (GetCommit headSHA) r) as [o r0] eqn:E.
  split.
  - simpl. split; [done |]. destruct o; simpl; [| done ..].
    rewrite trace_bind. apply updates_follow_creation_app.
    + apply pickCommits_updates.
    + intros p. by destruct (fst (run _ r0)).
  - intros V.
    assert (refs_valid r0)
      by (eapply (step_valid _ _ _ _ E V); by intros ??? [=]).
    constructor; [done |]. destruct o; simpl; [| done ..].
    rewrite states_bind, Forall_app.
    destruct (pickCommits_refs_valid name commits a r0) as [Hs _]; [done |].
    split; [done |]. by destruct (fst (run _ r0)).
Qed.

Lemma branch_ref_always_points_at_created_commit_witness :
  refs_valid (Scenario.remote [] [])
  ∧ updates_follow_creation None
      (trace (CherryPickCommitsOnBranch Scenario.release
                [Scenario.cB; Scenario.cC]) (Scenario.remote [] []))
  ∧ Forall refs_valid
      (states (CherryPickCommitsOnBranch Scenario.release
                 [Scenario.cB; Scenario.cC]) (Scenario.remote [] [])).
Proof.
  assert (V : refs_valid (Scenario.remote [] [])).
  { refine (bool_decide_unpack
              (map_Forall (λ _ sha, is_Some (Scenario.store !! sha))
                 Scenario.heads) _).
    vm_compute. exact I. }
  split; [exact V |].
  destruct (branch_ref_always_points_at_created_commit Scenario.release
              [Scenario.cB; Scenario.cC] (Scenario.remote [] [])) as [H1 H2].
  split; [exact H1 | exact (H2 V)].
Defined.

(** ** The replay loop *)

(** The deferred branch deletion: one request, whose outcome is dropped. *)
Lemma run_deleteBranch_then {A} branchName (x : A) r :
  run (bind (deleteBranch branchName) (λ _, Ret x)) r
  = (x, snd (handle (DeleteRef (branchRefPrefix +:+ branchName)) r)).
Proof.
  unfold deleteBranch, andThen, call. simpl.
  by destruct (handle _ r) as [[] ?].
Qed.

Lemma trace_deleteBranch_then {A} branchName (x : A) r :
  trace (bind (deleteBranch branchName) (λ _, Ret x)) r
  = [entry (DeleteRef (branchRefPrefix +:+ branchName))
       (fst (handle (DeleteRef (branchRefPrefix +:+ branchName)) r))].
Proof.
  unfold deleteBranch, andThen, call. simpl.
  by destruct (handle _ r) as [[] ?].
Qed.

Lemma run_pickCommits_app branchName pre rest headCommit r :
  run (pickCommits branchName (pre ++ rest) headCommit) r
  = match run (pickCommits branchName pre headCommit) r with
    | (Ok h, r') => run (pickCommits branchName rest h) r'
    | other => other
    end.
Proof.
  revert headCommit r.
  induction pre as [|c pre IH]; intros headCommit r; [done |].
  cbn [pickCommits app]. rewrite !run_bind.
  destruct (fst (run (cherryPickCommit branchName c headCommit) r))
    as [[tree sha]|e|w].
  - apply IH.
  - by rewrite run_deleteBranch_then.
  - done.
Qed.

Lemma trace_pickCommits_app branchName pre rest headCommit r :
  trace (pickCommits branchName (pre ++ rest) headCommit) r
  = trace (pickCommits branchName pre headCommit) r
    ++ match run (pickCommits branchName pre headCommit) r with
       | (Ok h, r') => trace (pickCommits branchName rest h) r'
       | _ => []
       end.
Proof.
  revert headCommit r.
  induction pre as [|c pre IH]; intros headCommit r; [done |].
  cbn [pickCommits app].
  rewrite !trace_bind, !run_bind, <- app_assoc. f_equal.
  destruct (fst (run (cherryPickCommit branchName c headCommit) r))
    as [[tree sha]|e|w].
  - apply IH.
  - rewrite trace_deleteBranch_then, run_deleteBranch_then.
    by rewrite app_nil_r.
  - done.
Qed.

(** The only ref update that can succeed in a failed step is the one that
    points the branch at the throw-away sibling commit. *)
Ltac close_failed :=
  intros _; repeat constructor; unfold entry_call, entry_ok; simpl;
  intros ??? Hc Hok; try discriminate;
  injection Hc as <- <- <-; by eexists _, _.

Lemma cherryPickCommit_failed_updates branchName cherryCommit headBranchCommit
    r err :
  fst (run (cherryPickCommit branchName cherryCommit headBranchCommit) r)
  = Err err ->
  only_sibling_update
    (trace (cherryPickCommit branchName cherryCommit headBranchCommit) r).
Proof.
  unfold only_sibling_update. unfold_client.
  destruct (Parents cherryCommit !! 0%nat) as [cherryParent|]; [| done].
  simpl. next_request; [| close_failed ..].
  next_request; [| close_failed ..].
  destruct (SHA cherryCommit) as [cherrySHA|]; [| done].
  simpl. next_request; [| close_failed ..].
  next_request; [| close_failed ..].
  destruct (SHA headBranchCommit) as [headSHA|]; [| done].
  simpl. next_request; [| close_failed ..].
  destruct (Message cherryCommit) as [message|]; [| done].
  simpl. next_request; [| close_failed ..].
  next_request; [done | close_failed ..].
Qed.

(** C3: when the first k-1 commits of the list are replayed and the replay
    of the k-th returns an error, [CherryPickCommitsOnBranch] returns that
    error; its requests are those of the k-1 completed replays, then those
    of the failed one, then a single deletion of the ref "refs/heads/" +
    branch name, and nothing else: the commits after the k-th are never
    attempted (the run does not depend on them).  In the failed replay the
    only ref update that can have succeeded is the one to the throw-away
    sibling, so no k-th commit is appended to the branch. *)
Theorem CherryPickCommitsOnBranch_stops_at_first_failure
    (branch : Branch) (name headSHA : string) (pre post : list Commit)
    (c : Commit) (r r0 r1 r2 : Remote) (head0 head1 : Commit) (err : error) :
  Name branch = Some name ->
  BCommit branch = Some {| rc_SHA := Some headSHA |} ->
  handle (GetCommit headSHA) r = (Ok head0, r0) ->
  run (pickCommits name pre head0) r0 = (Ok head1, r1) ->
  run (cherryPickCommit name c head1) r1 = (Err err, r2) ->
  run (CherryPickCommitsOnBranch branch (pre ++ c :: post)) r
  = (Err err, snd (handle (DeleteRef (branchRefPrefix +:+ name)) r2))
  ∧ trace (CherryPickCommitsOnBranch branch (pre ++ c :: post)) r
    = trace (CherryPickCommitsOnBranch branch pre) r
      ++ trace (cherryPickCommit name c head1) r1
      ++ [entry (DeleteRef (branchRefPrefix +:+ name))
            (fst (handle (DeleteRef (branchRefPrefix +:+ name)) r2))]
  ∧ only_sibling_update (trace (cherryPickCommit name c head1) r1).
Proof.
  intros Hn Hc E Hpre Hk. unfold CherryPickCommitsOnBranch.
  rewrite Hn, Hc. cbn [deref rc_SHA]. unfold getCommit, andThen, call.
  cbn [bind run trace]. rewrite E. cbn [bind run trace].
  rewrite !run_bind, !trace_bind, run_pickCommits_app, trace_pickCommits_app.
  rewrite Hpre. cbn [pickCommits fst snd].
  rewrite !run_bind, !trace_bind, Hk. cbn [fst snd].
  rewrite run_deleteBranch_then, trace_deleteBranch_then. cbn [fst snd trace].
  split_and!.
  - done.
  - by rewrite !app_nil_r.
  - apply (cherryPickCommit_failed_updates _ _ _ _ err). by rewrite Hk.
Qed.

Lemma CherryPickCommitsOnBranch_stops_at_first_failure_witness :
  run (CherryPickCommitsOnBranch Scenario.release
         ([Scenario.cB] ++ Scenario.cC :: [Scenario.cB])) Conflicting.start
  = (Err Conflict, snd (handle Conflicting.deletion Conflicting.failedC))
  ∧ trace (CherryPickCommitsOnBranch Scenario.release
             ([Scenario.cB] ++ Scenario.cC :: [Scenario.cB])) Conflicting.start
    = trace (CherryPickCommitsOnBranch Scenario.release [Scenario.cB])
        Conflicting.start
      ++ trace (cherryPickCommit "release" Scenario.cC (fst Conflicting.afterB))
           (snd Conflicting.afterB)
      ++ [entry Conflicting.deletion
            (fst (handle Conflicting.deletion Conflicting.failedC))]
  ∧ only_sibling_update
      (trace (cherryPickCommit "release" Scenario.cC (fst Conflicting.afterB))
         (snd Conflicting.afterB)).
Proof.
  apply (CherryPickCommitsOnBranch_stops_at_first_failure
           Scenario.release "release" "D" [Scenario.cB] [Scenario.cB]
           Scenario.cC Conflicting.start Conflicting.start
           (snd Conflicting.afterB) Conflicting.failedC
           Scenario.cD (fst Conflicting.afterB) Conflict).
  - reflexivity.
  - reflexivity.
  - vm_compute. reflexivity.
  - apply injective_projections; [vm_compute; reflexivity | reflexivity].
  - apply injective_projections; [vm_compute; reflexivity | reflexivity].
Defined.

(** ** Requests of the resolver *)

Lemma always_bind {A B} (P : Call -> Prop) (p : Prog A) (f : A -> Prog B) :
  always P p -> (∀ a, always P (f a)) -> always P (bind p f).
Proof.
  induction p as [a | c k IH]; simpl; [auto |].
  intros [Hc Hk] Hf. split; [done |]. intros o. by apply IH.
Qed.






(** ** The first parent of a cherry-picked commit *)

(** The service model and the go-github client never raise an index panic. *)
Lemma handle_panic c r w r' :
  handle c r = (Panic w, r') -> w = nilDereference.
Proof.
  unfold handle. destruct (precheck c) eqn:Ep.
  - intros [= <- <-]. destruct c; simpl in Ep; try done.
    by destruct (forallb _ _); simplify_eq.
  - destruct (faults r) as [|[] fs]; try done;
      destruct c; simpl; repeat case_match; done.
Qed.

Ltac no_index_panic :=
  simpl;
  try match goal with
      | E : handle _ _ = (Panic _, _) |- _ =>
        apply handle_panic in E as ->
      end;
  done.

Lemma cherryPickCommit_in_bounds branchName cherryCommit headBranchCommit r :
  Parents cherryCommit ≠ [] ->
  fst (run (cherryPickCommit branchName cherryCommit headBranchCommit) r)
  ≠ Panic indexOutOfRange.
Proof.
  intros Hp. unfold_client.
  destruct (Parents cherryCommit) as [|cherryParent ps]; [done |].
  simpl. next_request; [| no_index_panic ..].
  next_request; [| no_index_panic ..].
  destruct (SHA cherryCommit) as [cherrySHA|]; [| done].
  simpl. next_request; [| no_index_panic ..].
  next_request; [| no_index_panic ..].
  destruct (SHA headBranchCommit) as [headSHA|]; [| done].
  simpl. next_request; [| no_index_panic ..].
  destruct (Message cherryCommit) as [message|]; [| done].
  simpl. next_request; [| no_index_panic ..].
  next_request; no_index_panic.
Qed.

Lemma pickCommits_in_bounds branchName commits headCommit r :
  Forall (λ c, Parents c ≠ []) commits ->
  fst (run (pickCommits branchName commits headCommit) r)
  ≠ Panic indexOutOfRange.
Proof.
  intros Hall. revert headCommit r.
  induction Hall as [|c rest Hc Hrest IH]; intros headCommit r; [done |].
  cbn [pickCommits]. rewrite run_bind.
  pose proof (cherryPickCommit_in_bounds branchName c headCommit r Hc) as Hk.
  destruct (fst (run (cherryPickCommit branchName c headCommit) r))
    as [[tree sha]|e|w].
  - apply IH.
  - by rewrite run_deleteBranch_then.
  - simpl. congruence.
Qed.

(** C9: [CherryPickCommitsOnBranch] does not check parent counts.  A commit
    without parents makes [cherryPickCommit] panic on [Parents[0]] before
    any request; in a list, once the commits before it are replayed, the
    whole call panics there and then (no branch deletion runs).  When every
    commit of the list has at least one parent, the access is in bounds:
    it yields the first parent and no run ends in an index panic. *)
Theorem first_parent_access_unchecked
    (branch : Branch) (name headSHA : string) (c : Commit) :
  Name branch = Some name ->
  BCommit branch = Some {| rc_SHA := Some headSHA |} ->
  (Parents c = [] ->
   Parents c !! 0%nat = None
   ∧ (∀ headCommit,
        cherryPickCommit name c headCommit = Ret (Panic indexOutOfRange))
   ∧ ∀ pre post r head0 r0 head1 r1,
       handle (GetCommit headSHA) r = (Ok head0, r0) ->
       run (pickCommits name pre head0) r0 = (Ok head1, r1) ->
       run (CherryPickCommitsOnBranch branch (pre ++ c :: post)) r
       = (Panic indexOutOfRange, r1))
  ∧ ∀ commits r,
      Forall (λ c, Parents c ≠ []) commits ->
      Forall (λ c, is_Some (Parents c !! 0%nat)) commits
      ∧ fst (run (CherryPickCommitsOnBranch branch commits) r)
        ≠ Panic indexOutOfRange.
Proof.
  intros Hn Hc. split.
  - intros Hp. split_and!.
    + by rewrite Hp.
    + intros headCommit. unfold cherryPickCommit. by rewrite Hp.
    + intros pre post r head0 r0 head1 r1 E Hpre.
      unfold CherryPickCommitsOnBranch. rewrite Hn, Hc. cbn [deref rc_SHA].
      unfold getCommit, andThen, call. cbn [bind run]. rewrite E.
      cbn [bind run]. rewrite run_bind, run_pickCommits_app, Hpre.
      cbn [pickCommits fst snd]. unfold cherryPickCommit. by rewrite Hp.
  - intros commits r Hall. split.
    + eapply Forall_impl; [exact Hall |].
      intros x Hx. simpl in Hx. by destruct (Parents x); [| eexists].
    + unfold CherryPickCommitsOnBranch. rewrite Hn, Hc. cbn [deref rc_SHA].
      unfold getCommit, andThen, call. cbn [bind run].
      destruct (handle (GetCommit headSHA) r) as [o r0] eqn:E.
      destruct o; cbn [bind run fst]; [| done | no_index_panic].
      rewrite run_bind.
      pose proof (pickCommits_in_bounds name commits a r0 Hall) as Hk.
      destruct (fst (run (pickCommits name commits a) r0)); simpl;
        congruence.
Qed.

Lemma first_parent_access_unchecked_witness :
  run (CherryPickCommitsOnBranch Scenario.release
         ([Scenario.cB] ++ Scenario.cA :: [Scenario.cC]))
    (Scenario.remote [] [])
  = (Panic indexOutOfRange,
     snd (run (pickCommits "release" [Scenario.cB] Scenario.cD)
            (Scenario.remote [] [])))
  ∧ fst (run (CherryPickCommitsOnBranch Scenario.release
                [Scenario.cB; Scenario.cC]) (Scenario.remote [] []))
    ≠ Panic indexOutOfRange.
Proof.
  destruct (first_parent_access_unchecked Scenario.release "release" "D"
              Scenario.cA eq_refl eq_refl) as [Hempty _].
  destruct (first_parent_access_unchecked Scenario.release "release" "D"
              Scenario.cB eq_refl eq_refl) as [_ Hbounds].
  destruct (Hempty eq_refl) as (_ & _ & Hpanic).
  split.
  - apply (Hpanic [Scenario.cB] [Scenario.cC] (Scenario.remote [] [])
             Scenario.cD (Scenario.remote [] []) (fst Conflicting.afterB)).
    + vm_compute. reflexivity.
    + apply injective_projections; [vm_compute; reflexivity | reflexivity].
  - apply Hbounds. repeat constructor; discriminate.
Defined.

(** ** The resolver on a service that answers every request *)

Lemma handle_faultless c r :
  faults r = [] -> precheck c = None -> handle c r = serve c r.
Proof.
  intros Hf Hp. rewrite handle_no_fault; [| done | by rewrite Hf].
  destruct r. simpl in *. by subst.
Qed.

Lemma handle_GetCommit_faultless r sha c :
  faults r = [] -> objects r !! sha = Some c ->
  handle (GetCommit sha) r = (Ok c, r).
Proof.
  intros Hf Hc. rewrite handle_faultless by done.
  simpl. by destruct (objects r !! sha); simplify_eq.
Qed.

(** Paging: the loop of [getBranchCommits] collects the whole enumeration,
    given fuel for its pages. *)
Lemma listPages_faultless branchName r L :
  faults r = [] -> listing r branchName = Some L ->
  ∀ fuel page,
    ((Nat.max page 1 - 1) * perPage ≤ length L)%nat ->
    (length L < (Nat.max page 1 - 1 + fuel) * perPage)%nat ->
    run (listPages fuel branchName page
           (take ((Nat.max page 1 - 1) * perPage) L)) r
    = (Some (Ok L), r).
Proof.
  intros Hf HL. induction fuel as [|fuel IH]; intros page Hlo Hhi.
  - unfold perPage in *. lia.
  - cbn [listPages]. unfold call. cbn [bind run].
    rewrite handle_faultless by done. cbn [serve]. rewrite HL.
    unfold pageOf. cbn [bind run NextPage].
    rewrite take_take_drop.
    destruct (Nat.max page 1 * perPage <? length L)%nat eqn:Emore.
    + apply Nat.ltb_lt in Emore. cbn [Nat.eqb].
      replace (take ((Nat.max page 1 - 1) * perPage + perPage) L)
        with (take ((Nat.max (S (Nat.max page 1)) 1 - 1) * perPage) L)
        by (f_equal; unfold perPage; lia).
      apply IH; unfold perPage in *; lia.
    + apply Nat.ltb_ge in Emore. cbn [Nat.eqb run].
      rewrite take_ge; [done |]. unfold perPage in *. lia.
Qed.

Lemma getBranchCommits_faultless fuel branchName r L :
  faults r = [] -> listing r branchName = Some L ->
  (length L < fuel * perPage)%nat ->
  run (getBranchCommits fuel branchName) r = (Some (Ok L), r).
Proof.
  intros Hf HL Hfuel. unfold getBranchCommits.
  apply (listPages_faultless branchName r L Hf HL fuel 0); simpl; lia.
Qed.

Lemma matchDiff_faultless repoCommit r :
  faults r = [] ->
  ∀ diffCommits commits cs,
    stored (objects r) (matchesOf repoCommit diffCommits) cs ->
    run (matchDiff repoCommit diffCommits commits) r
    = (if forallb singleParent cs then Ok (commits ++ cs)
       else Err mergeCommitsUnsupported, r).
Proof.
  intros Hf. induction diffCommits as [|d rest IH]; intros commits cs Hcs.
  - apply Forall2_nil_inv_l in Hcs as ->. simpl. by rewrite app_nil_r.
  - cbn [matchDiff matchesOf] in *.
    destruct (String.eqb (rc_GetSHA d) (rc_GetSHA repoCommit)); [| by apply IH].
    apply Forall2_cons_inv_l in Hcs as (c & cs' & Hc & Hcs' & ->).
    cbv beta in Hc. unfold getCommit, andThen, call. cbn [bind run].
    rewrite (handle_GetCommit_faultless r _ c) by done.
    cbn [bind run forallb]. unfold singleParent at 1.
    destruct (length (Parents c) =? 1)%nat; cbn [negb andb]; [| done].
    rewrite (IH _ cs' Hcs'). by rewrite <- app_assoc.
Qed.

Lemma collectCommits_faultless diffCommits r :
  faults r = [] ->
  ∀ repoCommits commits cs,
    stored (objects r) (selected repoCommits diffCommits) cs ->
    run (collectCommits repoCommits diffCommits commits) r
    = (if forallb singleParent cs then Ok (commits ++ cs)
       else Err mergeCommitsUnsupported, r).
Proof.
  intros Hf. induction repoCommits as [|rc rest IH]; intros commits cs Hcs.
  - apply Forall2_nil_inv_l in Hcs as ->. simpl. by rewrite app_nil_r.
  - cbn [collectCommits]. unfold selected in Hcs. cbn [flat_map] in Hcs.
    apply Forall2_app_inv_l in Hcs as (cs1 & cs2 & H1 & H2 & ->).
    unfold andThen. rewrite run_bind.
    rewrite (matchDiff_faultless rc r Hf diffCommits commits cs1 H1).
    rewrite forallb_app. cbn [fst snd].
    destruct (forallb singleParent cs1); cbn [andb]; [| done].
    rewrite (IH _ cs2 H2). by rewrite <- app_assoc.
Qed.

(** The whole resolver, when every request is answered and every selected
    commit is in the store. *)
Lemma GetBranchCommits_faultless fuel branchName r L D cs :
  faults r = [] ->
  listing r branchName = Some L ->
  (length L < fuel * perPage)%nat ->
  comparison r "master" branchName = Some D ->
  stored (objects r) (selected L D) cs ->
  run (GetBranchCommits fuel branchName) r
  = (Some (if forallb singleParent cs then Ok cs
           else Err mergeCommitsUnsupported), r).
Proof.
  intros Hf HL Hfuel HD Hcs. unfold GetBranchCommits.
  rewrite run_bind, (getBranchCommits_faultless fuel branchName r L) by done.
  cbn [fst snd]. rewrite run_bind. unfold andThen, call. cbn [bind run].
  rewrite handle_faultless by done. cbn [serve]. rewrite HD. cbn [bind].
  rewrite (collectCommits_faultless D r Hf L [] cs Hcs). cbn [fst snd run app].
  by destruct (forallb singleParent cs).
Qed.

(** C5: when every request is answered and the commits the resolver selects
    (the listed commits of the source branch that the comparison with
    mainline reports) are in the store, one selected commit whose parent
    count is not 1 makes [GetBranchCommits] return the error "merge commits
    are not supported." and no list, whatever was collected before it. *)
Theorem GetBranchCommits_rejects_merge_commits
    (fuel : nat) (branchName : string) (r : Remote)
    (L D : list RepositoryCommit) (cs : list Commit) (c : Commit) :
  faults r = [] ->
  listing r branchName = Some L ->
  (length L < fuel * perPage)%nat ->
  comparison r "master" branchName = Some D ->
  stored (objects r) (selected L D) cs ->
  c ∈ cs ->
  length (Parents c) ≠ 1%nat ->
  run (GetBranchCommits fuel branchName) r
  = (Some (Err mergeCommitsUnsupported), r).
Proof.
  intros Hf HL Hfuel HD Hcs Hin Hc.
  rewrite (GetBranchCommits_faultless fuel branchName r L D cs) by done.
  destruct (forallb singleParent cs) eqn:Eall; [| done].
  rewrite forallb_forall in Eall.
  apply list_elem_of_In, Eall in Hin. unfold singleParent in Hin.
  by apply Nat.eqb_eq in Hin.
Qed.

Lemma GetBranchCommits_rejects_merge_commits_witness :
  run (GetBranchCommits 1 "merged") Merged.start
  = (Some (Err mergeCommitsUnsupported), Merged.start).
Proof.
  apply (GetBranchCommits_rejects_merge_commits 1 "merged" Merged.start
           [Scenario.summary "A"; Scenario.summary "B"; Scenario.summary "M"]
           [Scenario.summary "B"; Scenario.summary "M"]
           [Scenario.cB; Merged.cM] Merged.cM).
  - reflexivity.
  - reflexivity.
  - unfold perPage. simpl. lia.
  - reflexivity.
  - repeat constructor.
  - apply list_elem_of_In. simpl. tauto.
  - simpl. lia.
Defined.

(** ** Reachability in a commit graph *)

Lemma reachable_trans objs a b c :
  reachable objs a b -> reachable objs b c -> reachable objs a c.
Proof.
  induction 1 as [|s cm p ps t Hs Hp Hps _ IH]; [done |].
  intros Hc. eapply reach_parent; eauto.
Qed.

Lemma reachable_root objs s c t :
  objs !! s = Some c -> Parents c = [] -> reachable objs s t -> t = s.
Proof.
  intros Hs Hp Hr. destruct Hr as [|s cm p ps t Hs' Hin]; [done |].
  rewrite Hs in Hs'. injection Hs' as <-. rewrite Hp in Hin.
  by apply elem_of_nil in Hin.
Qed.

Lemma linear_tip_reaches_base objs base cs :
  linear objs base cs -> reachable objs (tipOf base cs) base.
Proof.
  revert base. induction cs as [|c rest IH]; intros base; simpl.
  - intros _. apply reach_here.
  - intros (s & p & Hs & Ho & Hp & Hb & Hrest).
    unfold GetSHA. rewrite Hs. simpl.
    eapply reachable_trans; [by apply IH |].
    eapply reach_parent; [exact Ho | | exact Hb | apply reach_here].
    rewrite Hp. apply list_elem_of_singleton. done.
Qed.

Lemma linear_tip_reaches objs base cs c :
  linear objs base cs -> c ∈ cs -> reachable objs (tipOf base cs) (GetSHA c).
Proof.
  revert base. induction cs as [|c0 rest IH]; intros base; simpl.
  - intros _ Hin. by apply elem_of_nil in Hin.
  - intros (s & p & Hs & Ho & Hp & Hb & Hrest) Hin.
    apply elem_of_cons in Hin as [-> | Hin].
    + unfold GetSHA at 2. rewrite Hs. simpl.
      replace (GetSHA c0) with s by (unfold GetSHA; by rewrite Hs).
      by apply linear_tip_reaches_base.
    + replace (GetSHA c0) with s by (unfold GetSHA; by rewrite Hs). by apply IH.
Qed.

Lemma linear_reachable_inv objs base cs t :
  linear objs base cs -> reachable objs (tipOf base cs) t ->
  t ∈ map GetSHA cs ∨ reachable objs base t.
Proof.
  revert base. induction cs as [|c rest IH]; intros base; simpl; [auto |].
  intros (s & p & Hs & Ho & Hp & Hb & Hrest).
  replace (GetSHA c) with s by (unfold GetSHA; by rewrite Hs).
  intros Hr. destruct (IH s Hrest Hr) as [Hin | Hs'].
  - left. by apply elem_of_cons; right.
  - destruct Hs' as [|s cm q qs t Hcm Hq Hqs Hr'].
    + left. apply elem_of_cons. by left.
    + right. rewrite Ho in Hcm. injection Hcm as <-.
      rewrite Hp in Hq. apply list_elem_of_singleton in Hq as ->.
      rewrite Hb in Hqs. by injection Hqs as <-.
Qed.

(** The commits of a linear branch that forks from mainline are exactly the
    commits reachable from its head and not from mainline. *)
Lemma linear_unmerged objs mainline fork cs :
  linear objs fork cs ->
  reachable objs mainline fork ->
  Forall (λ c, ¬ reachable objs mainline (GetSHA c)) cs ->
  ∀ t, t ∈ map GetSHA cs
       ↔ reachable objs (tipOf fork cs) t ∧ ¬ reachable objs mainline t.
Proof.
  intros Hl Hf Hd t. split.
  - intros Hin. apply list_elem_of_fmap in Hin as (c & -> & Hc). split.
    + by apply linear_tip_reaches.
    + rewrite Forall_forall in Hd. by apply Hd.
  - intros [Hr Hn]. destruct (linear_reachable_inv _ _ _ _ Hl Hr) as [|Hb];
      [done |].
    destruct Hn. by eapply reachable_trans.
Qed.

Lemma linear_stored objs base cs :
  linear objs base cs ->
  stored objs (map GetSHA cs) cs ∧ forallb singleParent cs = true.
Proof.
  revert base. induction cs as [|c rest IH]; intros base; simpl.
  - intros _. split; [constructor | done].
  - intros (s & p & Hs & Ho & Hp & Hb & Hrest).
    destruct (IH s Hrest) as [H1 H2]. split.
    + constructor; [| done]. unfold GetSHA. by rewrite Hs.
    + unfold singleParent at 1. by rewrite Hp, H2.
Qed.

(** ** What the nested loops select *)

Lemma matchesOf_absent repoCommit D :
  rc_GetSHA repoCommit ∉ map rc_GetSHA D -> matchesOf repoCommit D = [].
Proof.
  induction D as [|d rest IH]; simpl; [done |].
  intros Hn. apply not_elem_of_cons in Hn as [Hne Hn].
  destruct (String.eqb_spec (rc_GetSHA d) (rc_GetSHA repoCommit));
    [congruence | by apply IH].
Qed.

Lemma matchesOf_once repoCommit D :
  NoDup (map rc_GetSHA D) -> rc_GetSHA repoCommit ∈ map rc_GetSHA D ->
  matchesOf repoCommit D = [rc_GetSHA repoCommit].
Proof.
  induction D as [|d rest IH]; simpl.
  - intros _ Hin. by apply elem_of_nil in Hin.
  - intros Hnd Hin. apply NoDup_cons in Hnd as [Hd Hnd].
    destruct (String.eqb_spec (rc_GetSHA d) (rc_GetSHA repoCommit)) as [E|E].
    + f_equal. apply matchesOf_absent. by rewrite <- E.
    + apply elem_of_cons in Hin as [Hin | Hin]; [congruence | by apply IH].
Qed.

Lemma selected_app L1 L2 D : selected (L1 ++ L2) D = selected L1 D ++ selected L2 D.
Proof. unfold selected. apply flat_map_app. Qed.

Lemma selected_absent L D :
  Forall (λ o, rc_GetSHA o ∉ map rc_GetSHA D) L -> selected L D = [].
Proof.
  induction 1 as [|o L Ho _ IH]; [done |].
  unfold selected in *. simpl. by rewrite matchesOf_absent, IH.
Qed.

Lemma selected_once cs D :
  NoDup (map rc_GetSHA D) ->
  Forall (λ c, GetSHA c ∈ map rc_GetSHA D) cs ->
  selected (map summaryOf cs) D = map GetSHA cs.
Proof.
  intros Hnd. induction 1 as [|c cs Hc _ IH]; [done |].
  unfold selected in *. simpl. rewrite matchesOf_once, IH; done.
Qed.

(** With a comparison that reports no commit twice, the nested loops select
    the listed hashes that the comparison reports, in the order of the
    listing. *)
Lemma selected_filter L D :
  NoDup (map rc_GetSHA D) ->
  selected L D = filter (λ s, s ∈ map rc_GetSHA D) (map rc_GetSHA L).
Proof.
  intros Hnd. induction L as [|o L IH]; [done |].
  unfold selected in *. cbn [flat_map map]. rewrite IH.
  destruct (decide (rc_GetSHA o ∈ map rc_GetSHA D)) as [Hin | Hout].
  - by rewrite matchesOf_once, filter_cons_True.
  - by rewrite matchesOf_absent, filter_cons_False.
Qed.

Lemma linear_member objs base cs c :
  linear objs base cs -> c ∈ cs ->
  objs !! GetSHA c = Some c ∧ length (Parents c) = 1%nat.
Proof.
  revert base. induction cs as [|c0 rest IH]; intros base; simpl.
  - intros _ Hin. by apply elem_of_nil in Hin.
  - intros (s & p & Hs & Ho & Hp & Hb & Hrest) Hin.
    apply elem_of_cons in Hin as [-> | Hin]; [| by eapply IH].
    unfold GetSHA. rewrite Hs, Hp. done.
Qed.

(** The commits of a chain that the store holds under the given hashes. *)
Lemma linear_lookup objs base cs shas :
  linear objs base cs ->
  Forall (λ s, s ∈ map GetSHA cs) shas ->
  ∃ res, stored objs shas res
         ∧ Forall (λ c, c ∈ cs) res
         ∧ map GetSHA res = shas.
Proof.
  intros Hl. induction 1 as [|s shas Hs _ (res & Hst & Hin & Hm)].
  - exists []. split_and!; constructor.
  - apply list_elem_of_fmap in Hs as (c & -> & Hc).
    destruct (linear_member _ _ _ _ Hl Hc) as [Ho _].
    exists (c :: res). split_and!; [by constructor | by constructor |].
    simpl. by rewrite Hm.
Qed.

Lemma stored_by_hash (objs : gmap string Commit) (l1 l2 : list Commit) :
  Forall (λ c, objs !! GetSHA c = Some c) l1 ->
  Forall (λ c, objs !! GetSHA c = Some c) l2 ->
  map GetSHA l1 = map GetSHA l2 -> l1 = l2.
Proof.
  intros H1. revert l2. induction H1 as [|c l1 Hc _ IH]; intros l2 H2 Hm.
  - by destruct l2.
  - destruct H2 as [|c' l2 Hc' H2]; [done |].
    simpl in Hm. injection Hm as Hh Hm. rewrite Hh, Hc' in Hc.
    injection Hc as ->. f_equal. by apply IH.
Qed.

(** C2, as the code has it: let the source branch be a chain [cs] of
    single-parent commits on top of a fork point that lies on mainline,
    none of them reachable from mainline.  Assume the service answers every
    request, that its enumeration [L] of the branch lists every commit
    reachable from the branch head, none twice, in an order of its own, and
    that its comparison [D] with "master" reports, without repetition,
    exactly the commits reachable from the branch head and not from
    mainline.  Then, given fuel for the pages of the enumeration,
    [GetBranchCommits] returns a list [res] of stored single-parent commits
    whose hashes are exactly those reachable from the source branch and not
    from mainline, each once, in the order in which the enumeration lists
    them.  The list is the chain oldest first exactly when the enumeration
    lists the unmerged commits oldest first. *)
Theorem GetBranchCommits_unmerged_in_enumeration_order
    (fuel : nat) (branchName : string) (r : Remote) (fork mainline : string)
    (L D : list RepositoryCommit) (cs : list Commit) :
  faults r = [] ->
  linear (objects r) fork cs ->
  reachable (objects r) mainline fork ->
  Forall (λ c, ¬ reachable (objects r) mainline (GetSHA c)) cs ->
  listing r branchName = Some L ->
  NoDup (map rc_GetSHA L) ->
  (∀ t, reachable (objects r) (tipOf fork cs) t -> t ∈ map rc_GetSHA L) ->
  (length L < fuel * perPage)%nat ->
  comparison r "master" branchName = Some D ->
  NoDup (map rc_GetSHA D) ->
  (∀ t, t ∈ map rc_GetSHA D
        ↔ reachable (objects r) (tipOf fork cs) t
          ∧ ¬ reachable (objects r) mainline t) ->
  ∃ res,
    run (GetBranchCommits fuel branchName) r = (Some (Ok res), r)
    ∧ map GetSHA res
      = filter (λ s, s ∈ map rc_GetSHA D) (map rc_GetSHA L)
    ∧ NoDup (map GetSHA res)
    ∧ (∀ t, t ∈ map GetSHA res
            ↔ reachable (objects r) (tipOf fork cs) t
              ∧ ¬ reachable (objects r) mainline t)
    ∧ Forall (λ c, objects r !! GetSHA c = Some c
                   ∧ length (Parents c) = 1%nat) res
    ∧ (res = cs
       ↔ filter (λ s, s ∈ map rc_GetSHA D) (map rc_GetSHA L)
         = map GetSHA cs).
Proof.
  intros Hf Hl Hfork Hdiv HL HndL Hall Hfuel HD HndD Hcmp.
  pose proof (linear_unmerged _ _ _ _ Hl Hfork Hdiv) as Hset.
  set (shas := filter (λ s, s ∈ map rc_GetSHA D) (map rc_GetSHA L)).
  assert (Hshas : Forall (λ s, s ∈ map GetSHA cs) shas).
  { apply Forall_forall. intros s Hs.
    apply list_elem_of_filter in Hs as [Hs _]. by apply Hset, Hcmp. }
  destruct (linear_lookup _ _ _ _ Hl Hshas) as (res & Hst & Hin & Hm).
  assert (Hres : Forall (λ c, objects r !! GetSHA c = Some c
                              ∧ length (Parents c) = 1%nat) res).
  { eapply Forall_impl; [exact Hin |]. intros c Hc.
    by eapply linear_member. }
  exists res. split_and!.
  - rewrite (GetBranchCommits_faultless fuel branchName r L D res Hf HL
               Hfuel HD); [| by rewrite selected_filter].
    replace (forallb singleParent res) with true; [done |].
    symmetry. apply forallb_forall. intros c Hc.
    apply list_elem_of_In in Hc. rewrite Forall_forall in Hres.
    unfold singleParent. apply Nat.eqb_eq. by apply Hres.
  - done.
  - rewrite Hm. by apply NoDup_filter.
  - intros t. rewrite Hm. unfold shas. rewrite list_elem_of_filter.
    rewrite Hcmp. split; [by intros [? _] |].
    intros [Hr Hn]. split; [done |]. by apply Hall.
  - done.
  - split; [by intros <- |]. intros Heq.
    apply (stored_by_hash (objects r)).
    + eapply Forall_impl; [exact Hres |]. by intros c [? _].
    + apply Forall_forall. intros c Hc. by eapply linear_member.
    + by rewrite Hm.
Qed.

Lemma GetBranchCommits_unmerged_in_enumeration_order_witness :
  ∃ res,
    run (GetBranchCommits 1 "feature") NewestFirst.start
    = (Some (Ok res), NewestFirst.start)
    ∧ map GetSHA res
      = filter (λ s, s ∈ map rc_GetSHA
                           [Scenario.summary "B"; Scenario.summary "C"])
          (map rc_GetSHA [Scenario.summary "C"; Scenario.summary "B";
                          Scenario.summary "A"])
    ∧ NoDup (map GetSHA res)
    ∧ (∀ t, t ∈ map GetSHA res
            ↔ reachable (objects NewestFirst.start)
                (tipOf "A" [Scenario.cB; Scenario.cC]) t
              ∧ ¬ reachable (objects NewestFirst.start) "A" t)
    ∧ Forall (λ c, objects NewestFirst.start !! GetSHA c = Some c
                   ∧ length (Parents c) = 1%nat) res
    ∧ (res = [Scenario.cB; Scenario.cC]
       ↔ filter (λ s, s ∈ map rc_GetSHA
                            [Scenario.summary "B"; Scenario.summary "C"])
           (map rc_GetSHA [Scenario.summary "C"; Scenario.summary "B";
                           Scenario.summary "A"])
         = map GetSHA [Scenario.cB; Scenario.cC]).
Proof.
  assert (Hl : linear Scenario.store "A" [Scenario.cB; Scenario.cC]).
  { simpl. exists "B", (stubOf "A"). split_and!; try reflexivity.
    exists "C", (stubOf "B"). by split_and!. }
  assert (Hd : Forall (λ c, ¬ reachable Scenario.store "A" (GetSHA c))
                 [Scenario.cB; Scenario.cC]).
  { repeat constructor; intros H;
      by apply (reachable_root Scenario.store "A" Scenario.cA) in H. }
  apply (GetBranchCommits_unmerged_in_enumeration_order 1 "feature"
           NewestFirst.start "A" "A"
           [Scenario.summary "C"; Scenario.summary "B"; Scenario.summary "A"]
           [Scenario.summary "B"; Scenario.summary "C"]
           [Scenario.cB; Scenario.cC]).
  - reflexivity.
  - exact Hl.
  - apply reach_here.
  - exact Hd.
  - reflexivity.
  - simpl. repeat (apply NoDup_cons; split;
                     [rewrite ?elem_of_cons, elem_of_nil; intros H;
                      repeat destruct H as [H | H]; done |]).
    apply NoDup_nil_2.
  - intros t Ht.
    apply (linear_reachable_inv Scenario.store "A"
             [Scenario.cB; Scenario.cC] t Hl) in Ht as [Ht | Ht].
    + simpl in *. rewrite !elem_of_cons, elem_of_nil in Ht.
      rewrite !elem_of_cons. tauto.
    + apply (reachable_root Scenario.store "A" Scenario.cA) in Ht;
        [| reflexivity | reflexivity]. subst t. simpl.
      rewrite !elem_of_cons. tauto.
  - unfold perPage. simpl. lia.
  - reflexivity.
  - simpl. repeat (apply NoDup_cons; split;
                     [rewrite ?elem_of_cons, elem_of_nil; intros H;
                      repeat destruct H as [H | H]; done |]).
    apply NoDup_nil_2.
  - apply (linear_unmerged Scenario.store "A" "A" [Scenario.cB; Scenario.cC]
             Hl (reach_here _ _) Hd).
Defined.

(** The result is not oldest first in general.  On a service that
    enumerates a branch newest first, with the source branch "feature" the
    chain B, C on the fork point A of mainline, the resolver returns C, B:
    its first element is the newest unmerged commit, not the oldest. *)
Lemma GetBranchCommits_newest_first_enumeration :
  linear (objects NewestFirst.start) "A" [Scenario.cB; Scenario.cC]
  ∧ refs NewestFirst.start !! (branchRefPrefix +:+ "master") = Some "A"
  ∧ refs NewestFirst.start !! (branchRefPrefix +:+ "feature")
    = Some (tipOf "A" [Scenario.cB; Scenario.cC])
  ∧ fst (run (GetBranchCommits 1 "feature") NewestFirst.start)
    = Some (Ok [Scenario.cC; Scenario.cB])
  ∧ [Scenario.cC; Scenario.cB] ≠ [Scenario.cB; Scenario.cC]
  ∧ hd_error [Scenario.cC; Scenario.cB] ≠ Some Scenario.cB.
Proof.
  split_and!.
  - simpl. exists "B", (stubOf "A"). split_and!; try reflexivity.
    exists "C", (stubOf "B"). by split_and!.
  - reflexivity.
  - reflexivity.
  - vm_compute. reflexivity.
  - intros [=].
  - intros [=].
Qed.

(** ** Requests that succeed *)

Lemma handle_ok_inv c r a r' :
  handle c r = (Ok a, r') ->
  ∃ r0, same_repo r r0 ∧ serve c r0 = (Ok a, r').
Proof.
  intros H. destruct (handle_inv c r) as (r0 & Hs & [E | [_ E]]).
  - exists r0. by rewrite <- E.
  - rewrite H in E. by destruct (E a).
Qed.

Lemma handle_UpdateRef_ok ref sha f r u r' :
  handle (UpdateRef ref sha f) r = (Ok u, r') ->
  is_Some (refs r !! ref)
  ∧ objects r' = objects r ∧ refs r' = <[ref := sha]> (refs r).
Proof.
  intros H. apply handle_ok_inv in H as (r0 & (Ho & Hr & _) & H).
  simpl in H. rewrite Hr in H. destruct (refs r !! ref); [| done].
  injection H as _ <-. simpl. by rewrite ?Ho, ?Hr.
Qed.

Lemma handle_GetCommit_ok sha r c r' :
  handle (GetCommit sha) r = (Ok c, r') ->
  objects r !! sha = Some c ∧ objects r' = objects r ∧ refs r' = refs r.
Proof.
  intros H. apply handle_ok_inv in H as (r0 & (Ho & Hr & _) & H).
  simpl in H. rewrite Ho in H. destruct (objects r !! sha); [| done].
  by injection H as <- <-.
Qed.

Lemma handle_Merge_ok base head r m r' :
  handle (Merge base head) r = (Ok m, r') ->
  ∃ tip tree,
    refs r !! (branchRefPrefix +:+ base) = Some tip
    ∧ is_Some (objects r !! head)
    ∧ objects r !! rc_GetSHA m = None
    ∧ objects r'
      = <[rc_GetSHA m := {| SHA := Some (rc_GetSHA m); Message := Some "Merge";
                            CTree := Some tree;
                            Parents := [stubOf tip; stubOf head] |}]>
          (objects r)
    ∧ refs r' = <[branchRefPrefix +:+ base := rc_GetSHA m]> (refs r).
Proof.
  intros H. apply handle_ok_inv in H as (r0 & (Ho & Hr & _) & H).
  simpl in H. rewrite Ho, Hr in H.
  destruct (refs r !! (branchRefPrefix +:+ base)) as [tip|]; [| done].
  destruct (objects r !! head) as [hc|] eqn:Hh; [| done].
  destruct (automerge r0 tip head) as [tree|]; [| done].
  injection H as <- <-. exists tip, tree. simpl.
  split_and!; try done. apply fresh_string_fresh.
Qed.

(** ** A replay that succeeds *)

(** One step: three commits are added to the store, all under new hashes:
    the sibling, the merge commit, and the final commit, whose only parent
    is the head the step started from; the branch ref ends at the final
    commit. *)
Lemma cherryPickCommit_ok branchName cherryCommit headBranchCommit r tree sha
    r' headSHA head :
  run (cherryPickCommit branchName cherryCommit headBranchCommit) r
  = (Ok (tree, sha), r') ->
  SHA headBranchCommit = Some headSHA ->
  objects r !! headSHA = Some head ->
  SHA head = Some headSHA ->
  ∃ s1 s2 sibling mergeCommit,
    objects r !! s1 = None ∧ objects r !! s2 = None ∧ objects r !! sha = None
    ∧ s1 ≠ s2 ∧ s1 ≠ sha ∧ s2 ≠ sha
    ∧ objects r'
      = <[sha := {| SHA := Some sha; Message := Message cherryCommit;
                    CTree := tree; Parents := [stubOf headSHA] |}]>
          (<[s2 := mergeCommit]> (<[s1 := sibling]> (objects r)))
    ∧ refs r' = <[branchRefPrefix +:+ branchName := sha]> (refs r)
    ∧ Message sibling = Some "temp"
    ∧ Parents sibling = map stub (take 1 (Parents cherryCommit))
    ∧ Parents mergeCommit = [stubOf s1; stubOf (GetSHA cherryCommit)]
    ∧ CTree mergeCommit = tree.
Proof.
  intros H Hh Hst Hk. revert H. unfold_client. rewrite Hh.
  destruct (Parents cherryCommit) as [|cherryParent ps] eqn:Hp; [done |].
  simpl. destruct (handle (CreateCommit _) r) as [[sib| |] r1] eqn:E1;
    simpl; try done.
  destruct (handle (UpdateRef _ _ _) r1) as [[u1| |] r2] eqn:E2;
    simpl; try done.
  destruct (SHA cherryCommit) as [cherrySHA|] eqn:Hc; [| done].
  simpl. destruct (handle (Merge _ _) r2) as [[m| |] r3] eqn:E3;
    simpl; try done.
  destruct (handle (GetCommit _) r3) as [[mc| |] r4] eqn:E4;
    simpl; try done.
  destruct (handle (GetCommit _) r4) as [[upd| |] r5] eqn:E5;
    simpl; try done.
  destruct (Message cherryCommit) as [message|] eqn:Hm; [| done].
  simpl. destruct (handle (CreateCommit _) r5) as [[fin| |] r6] eqn:E6;
    simpl; try done.
  destruct (handle (UpdateRef _ _ _) r6) as [[u2| |] r7] eqn:E7;
    simpl; try done.
  intros [= <- <- <-].
  apply handle_CreateCommit_stored in E1 as (_ & F1 & R1 & S1 & O1).
  apply handle_UpdateRef_ok in E2 as (_ & O2 & R2).
  apply handle_Merge_ok in E3 as (tip & mt & T3 & _ & F3 & O3 & R3).
  apply handle_GetCommit_ok in E4 as (G4 & O4 & R4).
  apply handle_GetCommit_ok in E5 as (G5 & O5 & R5).
  apply handle_CreateCommit_stored in E6 as (_ & F6 & R6 & S6 & O6).
  apply handle_UpdateRef_ok in E7 as (_ & O7 & R7).
  simpl in *.
  rewrite O2, O1 in F3. apply lookup_insert_None in F3 as [F3 N12].
  rewrite R2, lookup_insert_eq in T3. injection T3 as <-.
  rewrite O3, lookup_insert_eq in G4. injection G4 as <-.
  rewrite O4, O3, O2, O1 in G5.
  rewrite lookup_insert_ne in G5 by congruence.
  rewrite lookup_insert_ne in G5 by congruence.
  rewrite Hst in G5. injection G5 as <-.
  rewrite O5, O4, O3, O2, O1 in F6.
  apply lookup_insert_None in F6 as [F6 N23].
  apply lookup_insert_None in F6 as [F6 N13].
  exists (GetSHA sib), (rc_GetSHA m), sib.
  eexists. split_and!; try done.
  - rewrite O7, O6, O5, O4, O3, O2, O1. f_equal.
    rewrite S6. unfold stub, stubOf. simpl. by rewrite Hk.
  - rewrite R7, R6, R5, R4, R3, R2, R1. by rewrite !insert_insert_eq.
  - by rewrite S1.
  - by rewrite S1.
  - simpl. unfold GetSHA. by rewrite Hc.
Qed.

Lemma linear_weaken objs objs' base cs :
  objs ⊆ objs' -> linear objs base cs -> linear objs' base cs.
Proof.
  intros Hsub. revert base. induction cs as [|c rest IH]; intros base; [done |].
  simpl. intros (s & p & Hs & Ho & Hp & Hb & Hrest).
  exists s, p. split_and!; try done; [by eapply lookup_weaken | by apply IH].
Qed.

Lemma scaffold_weaken objs objs' cherry temps :
  objs ⊆ objs' -> scaffold objs cherry temps -> scaffold objs' cherry temps.
Proof.
  intros Hsub (sibling & mergeCommit & H1 & H2 & H3 & H4 & H5).
  exists sibling, mergeCommit.
  split_and!; try done; by eapply lookup_weaken.
Qed.

Lemma absent_weaken (objs objs' : gmap string Commit) s :
  objs ⊆ objs' -> objs' !! s = None -> objs !! s = None.
Proof.
  intros Hsub Hn. destruct (objs !! s) as [v|] eqn:E; [| done].
  by rewrite (lookup_weaken _ _ _ _ E Hsub) in Hn.
Qed.

(** The loop: the final commits of the steps form a chain on top of the
    head the loop started from; the siblings and the merge commits are in
    the store too, under hashes of their own. *)
Lemma pickCommits_ok branchName commits :
  ∀ headCommit r final r' headSHA head,
    run (pickCommits branchName commits headCommit) r = (Ok final, r') ->
    SHA headCommit = Some headSHA ->
    objects r !! headSHA = Some head ->
    SHA head = Some headSHA ->
    refs r !! (branchRefPrefix +:+ branchName) = Some headSHA ->
    objects r ⊆ objects r'
    ∧ ∃ ns temps,
        Forall2 (λ n c, Message n = Message c) ns commits
        ∧ Forall (λ n, objects r !! GetSHA n = None) ns
        ∧ NoDup (map GetSHA ns)
        ∧ linear (objects r') headSHA ns
        ∧ refs r'
          = <[branchRefPrefix +:+ branchName := tipOf headSHA ns]> (refs r)
        ∧ Forall2 (scaffold (objects r')) commits temps
        ∧ Forall (λ p, objects r !! fst p = None ∧ objects r !! snd p = None
                       ∧ (fst p ∉ map GetSHA ns) ∧ (snd p ∉ map GetSHA ns))
            temps.
Proof.
  induction commits as [|c rest IH];
    intros headCommit r final r' headSHA head H Hh Hst Hk Href.
  - injection H as _ <-. split; [done |]. exists [], [].
    split_and!; try constructor. simpl. by rewrite insert_id.
  - revert H. cbn [pickCommits]. rewrite run_bind.
    destruct (run (cherryPickCommit branchName c headCommit) r)
      as [[[tree sha]|e|w] r1] eqn:E; cbn [fst snd].
    + intros H.
      destruct (cherryPickCommit_ok _ _ _ _ _ _ _ _ _ E Hh Hst Hk)
        as (s1 & s2 & sibling & mergeCommit & F1 & F2 & F3 & N12 & N13 & N23
            & O1 & R1 & M1 & P1 & P2 & _).
      set (n := {| SHA := Some sha; Message := Message c; CTree := tree;
                   Parents := [stubOf headSHA] |}) in *.
      assert (Hsub1 : objects r ⊆ objects r1).
      { rewrite O1. etrans; [| apply insert_subseteq].
        - etrans; [| apply insert_subseteq]; [apply insert_subseteq |]; [done|].
          by rewrite lookup_insert_ne.
        - by rewrite !lookup_insert_ne. }
      assert (Hn : objects r1 !! sha = Some n)
        by (by rewrite O1, lookup_insert_eq).
      assert (Hs1 : objects r1 !! s1 = Some sibling).
      { rewrite O1, !lookup_insert_ne by done. by rewrite lookup_insert_eq. }
      assert (Hs2 : objects r1 !! s2 = Some mergeCommit).
      { rewrite O1, lookup_insert_ne by done. by rewrite lookup_insert_eq. }
      destruct (IH _ _ _ _ sha n H eq_refl Hn eq_refl)
        as (Hsub & ns & temps & Hm & Hf & Hnd & Hl & Hr & Hsc & Ht).
      { by rewrite R1, lookup_insert_eq. }
      split; [by etrans |].
      exists (n :: ns), ((s1, s2) :: temps).
      assert (Hstored : ∀ s, is_Some (objects r1 !! s) -> s ∉ map GetSHA ns).
      { intros s [v Hv] Hin. apply list_elem_of_fmap in Hin as (x & -> & Hx).
        rewrite Forall_forall in Hf. rewrite (Hf x Hx) in Hv. done. }
      split_and!.
      * by constructor.
      * constructor; [done |]. eapply Forall_impl; [exact Hf |].
        intros x Hx. simpl in Hx. by eapply absent_weaken.
      * simpl. apply NoDup_cons. split; [| done]. apply Hstored. by eexists.
      * simpl. exists sha, (stubOf headSHA).
        split_and!; try done. by eapply lookup_weaken.
      * simpl. rewrite Hr, R1. by rewrite insert_insert_eq.
      * constructor; [| done]. apply scaffold_weaken with (objects r1); [done |].
        exists sibling, mergeCommit. by split_and!.
      * constructor.
        -- simpl. split_and!; try done.
           ++ intros Hin. apply elem_of_cons in Hin as [? | Hin]; [done |].
              eapply Hstored; [| exact Hin]. by eexists.
           ++ intros Hin. apply elem_of_cons in Hin as [? | Hin]; [done |].
              eapply Hstored; [| exact Hin]. by eexists.
        -- eapply Forall_impl; [exact Ht |].
           intros [p1 p2] (A1 & A2 & A3 & A4). simpl in *. split_and!.
           ++ by eapply absent_weaken.
           ++ by eapply absent_weaken.
           ++ intros Hin. apply elem_of_cons in Hin as [E1 | Hin]; [| done].
              cbv in E1. subst p1. by rewrite Hn in A1.
           ++ intros Hin. apply elem_of_cons in Hin as [E2 | Hin]; [| done].
              cbv in E2. subst p2. by rewrite Hn in A2.
    + rewrite run_deleteBranch_then. intros [=].
    + intros [=].
Qed.

(** ** Histories across a growing store *)

Lemma reachable_weaken objs objs' s t :
  objs ⊆ objs' -> reachable objs s t -> reachable objs' s t.
Proof.
  intros Hsub. induction 1 as [|s c p ps t Hs Hp Hps _ IH]; [apply reach_here |].
  eapply reach_parent; eauto. by eapply lookup_weaken.
Qed.

Lemma closed_grounded objs s :
  closed objs -> is_Some (objs !! s) -> grounded objs s.
Proof.
  intros Hc Hs t Hr. induction Hr as [|s c p ps t Hsc Hp Hps _ IH]; [done |].
  apply IH. destruct (Hc _ _ _ Hsc Hp) as (ps' & Hps' & Hst).
  rewrite Hps in Hps'. by injection Hps' as <-.
Qed.

(** New commits do not change the history of a commit whose history is in
    the store already. *)
Lemma reachable_grounded objs objs' s t :
  objs ⊆ objs' -> grounded objs s -> reachable objs' s t -> reachable objs s t.
Proof.
  intros Hsub Hg Hr. induction Hr as [|s c p ps t Hsc Hp Hps _ IH];
    [apply reach_here |].
  destruct (Hg s (reach_here _ _)) as [c0 Hc0].
  pose proof (lookup_weaken _ _ _ _ Hc0 Hsub) as Hc0'.
  rewrite Hsc in Hc0'. injection Hc0' as ->.
  assert (Hstep : reachable objs s ps)
    by (eapply reach_parent; eauto using reach_here).
  eapply reachable_trans; [exact Hstep |]. apply IH.
  intros u Hu. apply Hg. by eapply reachable_trans.
Qed.

Lemma linear_history objs base ns t :
  linear objs base ns ->
  reachable objs (tipOf base ns) t
  ↔ t ∈ map GetSHA ns ∨ reachable objs base t.
Proof.
  intros Hl. split; [by apply linear_reachable_inv |].
  intros [Hin | Hb].
  - apply list_elem_of_fmap in Hin as (c & -> & Hc). by apply linear_tip_reaches.
  - eapply reachable_trans; [by apply linear_tip_reaches_base | done].
Qed.

Lemma run_andThen {A B} (p : Prog (result A)) (f : A -> Prog (result B)) r :
  run (andThen p f) r
  = match run p r with
    | (Ok a, r') => run (f a) r'
    | (Err e, r') => (Err (Wrap e), r')
    | (Panic w, r') => (Panic w, r')
    end.
Proof.
  unfold andThen. rewrite run_bind. by destruct (run p r) as [[a|e|w] r'].
Qed.

Lemma getCommit_ok sha r c r' :
  run (getCommit sha) r = (Ok c, r') ->
  objects r !! sha = Some c ∧ objects r' = objects r ∧ refs r' = refs r.
Proof.
  unfold getCommit, andThen, call. cbn [bind run].
  destruct (handle (GetCommit sha) r) as [[hc|e|w] r0] eqn:E; try done.
  cbn [run]. intros [= <- <-]. by apply handle_GetCommit_ok.
Qed.

(** C1: replaying [commits] onto an existing branch, when the replay
    succeeds (no request fails), adds to the branch one new commit per
    replayed commit, whatever the number of its parents (so in particular
    when every replayed commit has exactly one): the new commits [ns] have
    hashes that were not in the store, all different; they form a chain on
    top of the original head, the i-th new commit having the (i-1)-th (the
    original head for the first) as its only parent and carrying the message
    of the i-th replayed commit; the branch ref points at the last of them;
    and the history of the branch is then exactly the new commits and the
    history of the original head.  The sibling and the merge commit of every
    step are left in the store but are not reachable from the branch. *)
Theorem CherryPickCommitsOnBranch_appends_linear_history
    (branch : Branch) (commits : list Commit) (r r' : Remote)
    (name headSHA : string) (head : RepositoryCommit) :
  keyed (objects r) ->
  closed (objects r) ->
  Name branch = Some name ->
  BCommit branch = Some head ->
  rc_SHA head = Some headSHA ->
  refs r !! (branchRefPrefix +:+ name) = Some headSHA ->
  run (CherryPickCommitsOnBranch branch commits) r = (Ok tt, r') ->
  ∃ (ns : list Commit) (temps : list (string * string)),
    Forall2 (λ n c, Message n = Message c) ns commits
    ∧ Forall (λ n, objects r !! GetSHA n = None) ns
    ∧ NoDup (map GetSHA ns)
    ∧ objects r ⊆ objects r'
    ∧ linear (objects r') headSHA ns
    ∧ refs r' !! (branchRefPrefix +:+ name) = Some (tipOf headSHA ns)
    ∧ (∀ t, reachable (objects r') (tipOf headSHA ns) t
            ↔ t ∈ map GetSHA ns ∨ reachable (objects r) headSHA t)
    ∧ Forall2 (scaffold (objects r')) commits temps
    ∧ Forall (λ p, ¬ reachable (objects r') (tipOf headSHA ns) (fst p)
                   ∧ ¬ reachable (objects r') (tipOf headSHA ns) (snd p))
        temps.
Proof.
  intros Hkeyed Hclosed Hname Hhead Hsha Href.
  unfold CherryPickCommitsOnBranch. rewrite Hname, Hhead. cbn [deref].
  rewrite Hsha, run_andThen.
  destruct (run (getCommit headSHA) r) as [[hc|e|w] r0] eqn:E0; try done.
  apply getCommit_ok in E0 as (Hst & O0 & R0).
  rewrite run_andThen.
  destruct (run (pickCommits name commits hc) r0) as [[final|e|w] r1] eqn:E;
    try done.
  cbn [run]. intros [= <-].
  destruct (pickCommits_ok name commits hc r0 final r1 headSHA hc E)
    as (Hsub & ns & temps & Hm & Hf & Hnd & Hl & Hr & Hsc & Ht).
  { by apply Hkeyed in Hst. }
  { by rewrite O0. }
  { by apply Hkeyed in Hst. }
  { by rewrite R0. }
  rewrite O0 in *. clear O0.
  assert (Hg : grounded (objects r) headSHA)
    by (apply closed_grounded; [done | by eexists]).
  assert (Hhist : ∀ t, reachable (objects r1) (tipOf headSHA ns) t
                       ↔ t ∈ map GetSHA ns ∨ reachable (objects r) headSHA t).
  { intros t. rewrite (linear_history _ _ _ t Hl). split.
    - intros [? | Hrt]; [by left | right]. by eapply reachable_grounded.
    - intros [? | Hrt]; [by left | right]. by eapply reachable_weaken. }
  exists ns, temps. split_and!; try done.
  - by rewrite Hr, lookup_insert_eq.
  - eapply Forall_impl; [exact Ht |].
    intros p (A1 & A2 & A3 & A4). split.
    + intros Hp. apply Hhist in Hp as [? | Hp]; [done |].
      apply Hg in Hp as [v Hv]. by rewrite A1 in Hv.
    + intros Hp. apply Hhist in Hp as [? | Hp]; [done |].
      apply Hg in Hp as [v Hv]. by rewrite A2 in Hv.
Qed.

Lemma CherryPickCommitsOnBranch_appends_linear_history_witness :
  ∃ (ns : list Commit) (temps : list (string * string)),
    Forall2 (λ n c, Message n = Message c) ns [Scenario.cB; Scenario.cC]
    ∧ Forall (λ n, objects Replayed.start !! GetSHA n = None) ns
    ∧ NoDup (map GetSHA ns)
    ∧ objects Replayed.start ⊆ objects Replayed.finished
    ∧ linear (objects Replayed.finished) "D" ns
    ∧ refs Replayed.finished !! (branchRefPrefix +:+ "release")
      = Some (tipOf "D" ns)
    ∧ (∀ t, reachable (objects Replayed.finished) (tipOf "D" ns) t
            ↔ t ∈ map GetSHA ns ∨ reachable (objects Replayed.start) "D" t)
    ∧ Forall2 (scaffold (objects Replayed.finished))
        [Scenario.cB; Scenario.cC] temps
    ∧ Forall (λ p, ¬ reachable (objects Replayed.finished) (tipOf "D" ns)
                       (fst p)
                   ∧ ¬ reachable (objects Replayed.finished) (tipOf "D" ns)
                         (snd p))
        temps.
Proof.
  apply (CherryPickCommitsOnBranch_appends_linear_history Scenario.release
           [Scenario.cB; Scenario.cC] Replayed.start Replayed.finished
           "release" "D" (Scenario.summary "D")).
  - intros k c Hk.
    refine (map_Forall_lookup_1 (λ k c, SHA c = Some k) Scenario.store
              k c _ Hk).
    refine (bool_decide_unpack
              (map_Forall (λ k c, SHA c = Some k) Scenario.store) _).
    vm_compute. exact I.
  - intros k c p Hk Hp.
    assert (Hall : map_Forall
                     (λ _ c, Forall (λ p, SHA p = Some "A" ∨ SHA p = Some "B")
                               (Parents c)) Scenario.store).
    { refine (bool_decide_unpack
                (map_Forall
                   (λ _ c, Forall (λ p, SHA p = Some "A" ∨ SHA p = Some "B")
                             (Parents c)) Scenario.store) _).
      vm_compute. exact I. }
    apply (map_Forall_lookup_1 _ _ _ _ Hall) in Hk.
    rewrite Forall_forall in Hk. destruct (Hk p Hp) as [HA | HB].
    + exists "A". split; [done |]. by eexists.
    + exists "B". split; [done |]. by eexists.
  - reflexivity.
  - reflexivity.
  - reflexivity.
  - reflexivity.
  - apply injective_projections; [vm_compute; reflexivity | reflexivity].
Defined.

(** ** The requests of the replay and of the resolver *)

Lemma cherryPickCommit_always (P : Call -> Prop) branchName cherryCommit
    headBranchCommit :
  (∀ c, P (CreateCommit c)) ->
  (∀ sha, P (GetCommit sha)) ->
  (∀ sha, P (UpdateRef (branchRefPrefix +:+ branchName) sha true)) ->
  (∀ head, P (Merge branchName head)) ->
  always P (cherryPickCommit branchName cherryCommit headBranchCommit).
Proof.
  intros Hc Hg Hu Hm. unfold_client.
  destruct (Parents cherryCommit !! 0%nat); [| done]. simpl.
  split; [done |]. intros [sibling|e|w]; simpl; try done.
  split; [done |]. intros [u|e|w]; simpl; try done.
  destruct (SHA cherryCommit); [| done]. simpl.
  split; [done |]. intros [m|e|w]; simpl; try done.
  split; [done |]. intros [mc|e|w]; simpl; try done.
  destruct (SHA headBranchCommit); [| done]. simpl.
  split; [done |]. intros [upd|e|w]; simpl; try done.
  destruct (Message cherryCommit); [| done]. simpl.
  split; [done |]. intros [final|e|w]; simpl; try done.
  split; [done |]. intros [u'|e|w]; simpl; done.
Qed.

Lemma pickCommits_always (P : Call -> Prop) branchName commits :
  (∀ c, P (CreateCommit c)) ->
  (∀ sha, P (GetCommit sha)) ->
  (∀ sha, P (UpdateRef (branchRefPrefix +:+ branchName) sha true)) ->
  (∀ head, P (Merge branchName head)) ->
  P (DeleteRef (branchRefPrefix +:+ branchName)) ->
  ∀ headCommit, always P (pickCommits branchName commits headCommit).
Proof.
  intros Hc Hg Hu Hm Hd.
  induction commits as [|c rest IH]; intros headCommit; [done |].
  cbn [pickCommits]. apply always_bind.
  { by apply cherryPickCommit_always. }
  intros [[tree sha]|e|w]; [apply IH | | done].
  unfold deleteBranch, andThen, call. simpl. split; [done |].
  by intros [u|e'|w].
Qed.

Lemma CherryPickCommitsOnBranch_always (P : Call -> Prop) branch commits :
  (∀ c, P (CreateCommit c)) ->
  (∀ sha, P (GetCommit sha)) ->
  (∀ name sha, Name branch = Some name ->
     P (UpdateRef (branchRefPrefix +:+ name) sha true)) ->
  (∀ name head, Name branch = Some name -> P (Merge name head)) ->
  (∀ name, Name branch = Some name ->
     P (DeleteRef (branchRefPrefix +:+ name))) ->
  always P (CherryPickCommitsOnBranch branch commits).
Proof.
  intros Hc Hg Hu Hm Hd. unfold CherryPickCommitsOnBranch.
  destruct (Name branch) as [name|]; [| done].
  destruct (BCommit branch) as [bc|]; [| done]. cbn [deref].
  destruct (rc_SHA bc) as [headSHA|]; [| done].
  unfold getCommit at 1, andThen, call. simpl. split; [done |].
  intros [hc|e|w]; simpl; try done.
  apply always_bind.
  { apply pickCommits_always; auto. }
  by intros [h|e|w].
Qed.

Lemma GetBranchCommits_always (P : Call -> Prop) fuel branchName :
  (∀ page, P (ListCommits branchName page perPage)) ->
  P (CompareCommits "master" branchName) ->
  (∀ sha, P (GetCommit sha)) ->
  always P (GetBranchCommits fuel branchName).
Proof.
  intros Hl Hc Hg.
  assert (HL : ∀ fuel page acc, always P (listPages fuel branchName page acc)).
  { clear fuel. induction fuel as [|fuel IH]; intros page acc; simpl; [done |].
    split; [done |]. intros [[currCommits resp]|e|w]; simpl; try done.
    destruct (NextPage resp =? 0)%nat; [done | apply IH]. }
  assert (HM : ∀ rc D acc, always P (matchDiff rc D acc)).
  { intros rc. induction D as [|d rest IH]; intros acc; simpl; [done |].
    destruct (String.eqb _ _); [| apply IH].
    unfold getCommit, andThen, call. simpl. split; [done |].
    intros [commit|e|w]; simpl; try done.
    destruct (negb _); [done | apply IH]. }
  assert (HC : ∀ L D acc, always P (collectCommits L D acc)).
  { induction L as [|rc rest IH]; intros D acc; simpl; [done |].
    unfold andThen. apply always_bind; [apply HM |].
    intros [commits'|e|w]; simpl; done. }
  unfold GetBranchCommits, getBranchCommits. apply always_bind; [apply HL |].
  intros [[repoCommits|e|w]|]; simpl; try done.
  split; [done |]. intros [comparison|e|w]; simpl; try done.
  apply always_bind; [apply HC | done].
Qed.

(** A request that does not reach the service, or that only reads, leaves
    the repository as it is; a request leaves alone the refs it does not
    write. *)
Lemma handle_reads c r :
  reads c ->
  objects (snd (handle c r)) = objects r ∧ refs (snd (handle c r)) = refs r.
Proof.
  intros Hc. destruct (handle_inv c r) as (r0 & (Ho & Hr & _) & [-> | [-> _]]);
    [| done].
  destruct c; try done; simpl; by repeat case_match.
Qed.

Lemma handle_other_refs c r ref ref' :
  writes_only ref c -> ref' ≠ ref ->
  refs (snd (handle c r)) !! ref' = refs r !! ref'.
Proof.
  intros Hw Hne.
  destruct (handle_inv c r) as (r0 & (Ho & Hr & _) & [-> | [-> _]]);
    [| by rewrite Hr].
  rewrite <- Hr.
  destruct c; simpl; repeat case_match; simpl; try done.
  - rewrite lookup_insert_ne; [done |]. intros <-. by destruct Hne; apply Hw.
  - rewrite lookup_delete_ne; [done |]. intros <-. by destruct Hne; apply Hw.
  - rewrite lookup_insert_ne; [done |]. intros <-. by destruct Hne; apply Hw.
Qed.

Lemma run_reads {A} (p : Prog A) :
  always reads p ->
  ∀ r, objects (snd (run p r)) = objects r ∧ refs (snd (run p r)) = refs r.
Proof.
  induction p as [a | c k IH]; simpl; [done |].
  intros [Hc Hk] r. destruct (handle_reads c r Hc) as [Ho Hr].
  destruct (handle c r) as [o r1]. simpl in *.
  destruct (IH o (Hk o) r1) as [Ho' Hr']. by rewrite Ho', Hr'.
Qed.

Lemma run_other_refs {A} (p : Prog A) ref ref' :
  always (writes_only ref) p -> ref' ≠ ref ->
  ∀ r, refs (snd (run p r)) !! ref' = refs r !! ref'.
Proof.
  intros Hp Hne. induction p as [a | c k IH]; simpl; [done |].
  destruct Hp as [Hc Hk]. intros r.
  pose proof (handle_other_refs c r ref ref' Hc Hne) as Hr.
  destruct (handle c r) as [o r1]. simpl in *.
  by rewrite (IH o (Hk o) r1).
Qed.

(** X1: whatever the service answers and however the run ends, a replay
    onto the branch [name] leaves every other ref of the repository as it
    was: all its ref updates, its merges and its deletion name
    "refs/heads/" followed by [name]. *)
Theorem CherryPickCommitsOnBranch_leaves_other_refs
    (branch : Branch) (commits : list Commit) (r : Remote)
    (name ref : string) :
  Name branch = Some name ->
  ref ≠ branchRefPrefix +:+ name ->
  refs (snd (run (CherryPickCommitsOnBranch branch commits) r)) !! ref
  = refs r !! ref.
Proof.
  intros Hn Hne.
  apply run_other_refs with (ref := branchRefPrefix +:+ name); [| done].
  apply CherryPickCommitsOnBranch_always; try done.
  - intros n sha Hn'. rewrite Hn in Hn'. injection Hn' as <-.
    by intros x [= <-].
  - intros n head Hn'. rewrite Hn in Hn'. injection Hn' as <-.
    by intros x [= <-].
  - intros n Hn'. rewrite Hn in Hn'. injection Hn' as <-.
    by intros x [= <-].
Qed.

Lemma CherryPickCommitsOnBranch_leaves_other_refs_witness :
  refs Replayed.finished !! "refs/heads/feature"
  = refs Replayed.start !! "refs/heads/feature".
Proof.
  apply (CherryPickCommitsOnBranch_leaves_other_refs Scenario.release
           [Scenario.cB; Scenario.cC] Replayed.start "release"
           "refs/heads/feature").
  - reflexivity.
  - discriminate.
Defined.

(** X2: resolving the commits of a branch never writes: whatever the
    service answers, however many requests fail and however the resolution
    ends, the commits and the refs of the repository are what they were. *)
Theorem GetBranchCommits_read_only
    (fuel : nat) (branchName : string) (r : Remote) :
  objects (snd (run (GetBranchCommits fuel branchName) r)) = objects r
  ∧ refs (snd (run (GetBranchCommits fuel branchName) r)) = refs r.
Proof.
  apply run_reads. by apply GetBranchCommits_always.
Qed.

(** ** Requests and outcome of a replay *)

Lemma cherryPickCommit_ok_trace branchName cherryCommit headBranchCommit r x :
  fst (run (cherryPickCommit branchName cherryCommit headBranchCommit) r)
  = Ok x ->
  length (trace (cherryPickCommit branchName cherryCommit headBranchCommit) r)
  = 7%nat
  ∧ forallb entry_ok
      (trace (cherryPickCommit branchName cherryCommit headBranchCommit) r)
    = true.
Proof.
  unfold_client.
  destruct (Parents cherryCommit !! 0%nat) as [cherryParent|]; [| done].
  simpl. next_request; try done.
  next_request; try done.
  destruct (SHA cherryCommit) as [cherrySHA|]; [| done].
  simpl. next_request; try done.
  next_request; try done.
  destruct (SHA headBranchCommit) as [headSHA|]; [| done].
  simpl. next_request; try done.
  destruct (Message cherryCommit) as [message|]; [| done].
  simpl. next_request; try done.
  next_request; try done.
Qed.

Lemma cherryPickCommit_complete branchName cherryCommit headBranchCommit r :
  complete cherryCommit ->
  is_Some (SHA headBranchCommit) ->
  forallb entry_ok
    (trace (cherryPickCommit branchName cherryCommit headBranchCommit) r)
  = true ->
  ∃ x, fst (run (cherryPickCommit branchName cherryCommit headBranchCommit) r)
       = Ok x.
Proof.
  intros (Hp & [cherrySHA Hs] & [message Hm]) [headSHA Hh].
  unfold_client. rewrite Hs, Hm, Hh.
  destruct (Parents cherryCommit) as [|cherryParent ps]; [done |].
  simpl. next_request; try done.
  next_request; try done.
  next_request; try done.
  next_request; try done.
  next_request; try done.
  next_request; try done.
  next_request; try done.
  intros _. by eexists.
Qed.

Lemma pickCommits_ok_trace branchName commits :
  ∀ headCommit r final,
    fst (run (pickCommits branchName commits headCommit) r) = Ok final ->
    length (trace (pickCommits branchName commits headCommit) r)
    = (7 * length commits)%nat
    ∧ forallb entry_ok (trace (pickCommits branchName commits headCommit) r)
      = true.
Proof.
  induction commits as [|c rest IH]; intros headCommit r final; [done |].
  cbn [pickCommits]. rewrite run_bind, trace_bind.
  pose proof (cherryPickCommit_ok_trace branchName c headCommit r) as Hstep.
  destruct (run (cherryPickCommit branchName c headCommit) r)
    as [[[tree sha]|e|w] r1]; cbn [fst snd] in *.
  - intros H. destruct (Hstep _ eq_refl) as [Hlen Hok].
    destruct (IH _ _ _ H) as [Hlen' Hok'].
    rewrite length_app, forallb_app, Hlen, Hlen', Hok, Hok'.
    split; [simpl; lia | done].
  - by rewrite run_deleteBranch_then.
  - done.
Qed.

Lemma pickCommits_complete branchName commits :
  ∀ headCommit r,
    Forall complete commits ->
    is_Some (SHA headCommit) ->
    forallb entry_ok (trace (pickCommits branchName commits headCommit) r)
    = true ->
    ∃ final, fst (run (pickCommits branchName commits headCommit) r)
             = Ok final.
Proof.
  induction commits as [|c rest IH]; intros headCommit r Hall Hh;
    [by eexists |].
  apply Forall_cons in Hall as [Hc Hrest].
  cbn [pickCommits]. rewrite run_bind, trace_bind, forallb_app.
  intros [Hstep Hk]%andb_prop.
  destruct (cherryPickCommit_complete branchName c headCommit r Hc Hh Hstep)
    as [[tree sha] Hx].
  rewrite Hx in *. apply IH; [done | by eexists | done].
Qed.

Lemma CherryPickCommitsOnBranch_ok_trace
    (branch : Branch) (commits : list Commit) (r : Remote) :
  fst (run (CherryPickCommitsOnBranch branch commits) r) = Ok tt ->
  length (trace (CherryPickCommitsOnBranch branch commits) r)
  = (1 + 7 * length commits)%nat
  ∧ forallb entry_ok (trace (CherryPickCommitsOnBranch branch commits) r)
    = true.
Proof.
  unfold CherryPickCommitsOnBranch.
  destruct (Name branch) as [name|]; [| done].
  destruct (BCommit branch) as [bc|]; [| done]. cbn [deref].
  destruct (rc_SHA bc) as [headSHA|]; [| done].
  unfold getCommit at 1 2 3, andThen, call. cbn [bind run trace].
  destruct (handle (GetCommit headSHA) r) as [[hc|e|w] r0];
    cbn [bind run trace fst]; try done.
  rewrite run_bind, trace_bind.
  pose proof (pickCommits_ok_trace name commits hc r0) as Hloop.
  destruct (run (pickCommits name commits hc) r0) as [[final|e|w] r1];
    cbn [fst snd run trace] in *; try done.
  intros _. destruct (Hloop _ eq_refl) as [Hlen Hok].
  rewrite app_nil_r. cbn [length forallb entry_ok projT2 entry].
  by rewrite Hlen, Hok.
Qed.


(** X3: a replay that returns nil has sent exactly one request to read the
    head of the branch and seven requests per replayed commit, and every
    one of them succeeded. *)
Theorem CherryPickCommitsOnBranch_request_count
    (branch : Branch) (commits : list Commit) (r : Remote) :
  fst (run (CherryPickCommitsOnBranch branch commits) r) = Ok tt ->
  length (trace (CherryPickCommitsOnBranch branch commits) r)
  = (1 + 7 * length commits)%nat
  ∧ forallb entry_ok (trace (CherryPickCommitsOnBranch branch commits) r)
    = true.
Proof. apply CherryPickCommitsOnBranch_ok_trace. Qed.

Lemma CherryPickCommitsOnBranch_request_count_witness :
  length (trace (CherryPickCommitsOnBranch Scenario.release
                   [Scenario.cB; Scenario.cC]) Replayed.start)
  = (1 + 7 * 2)%nat
  ∧ forallb entry_ok
      (trace (CherryPickCommitsOnBranch Scenario.release
                [Scenario.cB; Scenario.cC]) Replayed.start)
    = true.
Proof.
  apply (CherryPickCommitsOnBranch_request_count Scenario.release
           [Scenario.cB; Scenario.cC] Replayed.start).
  vm_compute. reflexivity.
Defined.

(** X4: for a branch with a name and a head hash, a store keyed by hash and
    commits that each have a parent, a hash and a message, the replay
    returns nil exactly when no request fails: no error of a request is
    swallowed, and nothing but a failed request makes the replay fail. *)
Theorem CherryPickCommitsOnBranch_nil_iff_no_request_fails
    (branch : Branch) (commits : list Commit) (r : Remote)
    (name headSHA : string) (head : RepositoryCommit) :
  Name branch = Some name ->
  BCommit branch = Some head ->
  rc_SHA head = Some headSHA ->
  keyed (objects r) ->
  Forall complete commits ->
  fst (run (CherryPickCommitsOnBranch branch commits) r) = Ok tt
  ↔ forallb entry_ok (trace (CherryPickCommitsOnBranch branch commits) r)
    = true.
Proof.
  intros Hn Hb Hs Hkeyed Hall. split.
  { intros H. exact (proj2 (CherryPickCommitsOnBranch_ok_trace
                              branch commits r H)). }
  unfold CherryPickCommitsOnBranch. rewrite Hn, Hb. cbn [deref]. rewrite Hs.
  unfold getCommit at 1 2, andThen, call. cbn [bind run trace].
  destruct (handle (GetCommit headSHA) r) as [[hc|e|w] r0] eqn:E0;
    cbn [bind run trace fst forallb entry_ok projT2 entry andb]; try done.
  apply handle_GetCommit_ok in E0 as (Hst & _ & _).
  rewrite run_bind, trace_bind, forallb_app. intros [Hloop _]%andb_prop.
  destruct (pickCommits_complete name commits hc r0 Hall) as [final Hx];
    [apply Hkeyed in Hst; by eexists | done |].
  by rewrite Hx.
Qed.

(** The store of the scenario is keyed by hash. *)
Ltac scenario_keyed :=
  let k := fresh "k" in
  let c := fresh "c" in
  let Hk := fresh "Hk" in
  intros k c Hk;
  refine (map_Forall_lookup_1 (λ k c, SHA c = Some k) Scenario.store
            k c _ Hk);
  refine (bool_decide_unpack
            (map_Forall (λ k c, SHA c = Some k) Scenario.store) _);
  vm_compute; exact I.

Lemma CherryPickCommitsOnBranch_nil_iff_no_request_fails_witness :
  fst (run (CherryPickCommitsOnBranch Scenario.release
              [Scenario.cB; Scenario.cC]) Replayed.start) = Ok tt
  ↔ forallb entry_ok
      (trace (CherryPickCommitsOnBranch Scenario.release
                [Scenario.cB; Scenario.cC]) Replayed.start)
    = true.
Proof.
  apply (CherryPickCommitsOnBranch_nil_iff_no_request_fails Scenario.release
           [Scenario.cB; Scenario.cC] Replayed.start "release" "D"
           (Scenario.summary "D")).
  - reflexivity.
  - reflexivity.
  - reflexivity.
  - scenario_keyed.
  - repeat constructor; simpl; try discriminate; by eexists.
Defined.

(** ** Failures of a replay *)

(** X5: when the read of the head of the branch fails, the replay returns
    that error after this single request: the branch is not deleted, since
    the deletion is deferred inside the loop only. *)
Theorem CherryPickCommitsOnBranch_head_read_failure
    (branch : Branch) (commits : list Commit) (r : Remote)
    (name headSHA : string) (head : RepositoryCommit) (e : error) :
  Name branch = Some name ->
  BCommit branch = Some head ->
  rc_SHA head = Some headSHA ->
  fst (handle (GetCommit headSHA) r) = Err e ->
  run (CherryPickCommitsOnBranch branch commits) r
  = (Err e, snd (handle (GetCommit headSHA) r))
  ∧ trace (CherryPickCommitsOnBranch branch commits) r
    = [entry (GetCommit headSHA) (Err e)].
Proof.
  intros Hn Hb Hs. unfold CherryPickCommitsOnBranch.
  rewrite Hn, Hb. cbn [deref]. rewrite Hs.
  unfold getCommit at 1 2, andThen, call. cbn [bind run trace].
  destruct (handle (GetCommit headSHA) r) as [o r0]. cbn [fst snd].
  by intros ->.
Qed.

Lemma CherryPickCommitsOnBranch_head_read_failure_witness :
  run (CherryPickCommitsOnBranch Scenario.release [Scenario.cB])
    (Scenario.remote [] [true])
  = (Err Unavailable,
     snd (handle (GetCommit "D") (Scenario.remote [] [true])))
  ∧ trace (CherryPickCommitsOnBranch Scenario.release [Scenario.cB])
      (Scenario.remote [] [true])
    = [entry (GetCommit "D") (Err Unavailable)].
Proof.
  apply (CherryPickCommitsOnBranch_head_read_failure Scenario.release
           [Scenario.cB] (Scenario.remote [] [true]) "release" "D"
           (Scenario.summary "D") Unavailable); reflexivity.
Defined.

Lemma handle_faults_nil c r :
  faults r = [] -> faults (snd (handle c r)) = [].
Proof.
  intros Hf. unfold handle. rewrite Hf. destruct (precheck c); [done |].
  destruct c; simpl; repeat case_match; done.
Qed.

Lemma run_faults_nil {A} (p : Prog A) :
  ∀ r, faults r = [] -> faults (snd (run p r)) = [].
Proof.
  induction p as [a | c k IH]; simpl; [done |]. intros r Hf.
  pose proof (handle_faults_nil c r Hf) as Hf'.
  destruct (handle c r) as [o r1]. by apply IH.
Qed.

Lemma handle_ref_kept c r ref :
  (∀ x, c ≠ DeleteRef x) ->
  is_Some (refs r !! ref) -> is_Some (refs (snd (handle c r)) !! ref).
Proof.
  intros Hc Hr.
  destruct (handle_inv c r) as (r0 & (_ & Hr0 & _) & [-> | [-> _]]);
    [| by rewrite Hr0].
  rewrite <- Hr0 in Hr.
  destruct c; simpl; repeat case_match; simpl; try done.
  - rewrite lookup_insert. case_decide; [by eexists | done].
  - by destruct (Hc ref0).
  - rewrite lookup_insert. case_decide; [by eexists | done].
Qed.

Lemma run_ref_kept {A} (p : Prog A) ref :
  always (λ c, ∀ x, c ≠ DeleteRef x) p ->
  ∀ r, is_Some (refs r !! ref) -> is_Some (refs (snd (run p r)) !! ref).
Proof.
  induction p as [a | c k IH]; simpl; [done |]. intros [Hc Hk] r Hr.
  pose proof (handle_ref_kept c r ref Hc Hr) as Hr'.
  destruct (handle c r) as [o r1]. by apply IH.
Qed.

Lemma pickCommits_failure branchName commits :
  ∀ headCommit r e,
    faults r = [] ->
    is_Some (refs r !! (branchRefPrefix +:+ branchName)) ->
    fst (run (pickCommits branchName commits headCommit) r) = Err e ->
    refs (snd (run (pickCommits branchName commits headCommit) r))
      !! (branchRefPrefix +:+ branchName) = None.
Proof.
  induction commits as [|c rest IH]; intros headCommit r e Hf Hr; [done |].
  cbn [pickCommits]. rewrite run_bind.
  pose proof (run_faults_nil (cherryPickCommit branchName c headCommit) r Hf)
    as Hf1.
  assert (Hkeep : always (λ c, ∀ x, c ≠ DeleteRef x)
                    (cherryPickCommit branchName c headCommit))
    by (by apply cherryPickCommit_always).
  pose proof (run_ref_kept _ (branchRefPrefix +:+ branchName) Hkeep r Hr)
    as Hr1.
  destruct (run (cherryPickCommit branchName c headCommit) r)
    as [[[tree sha]|e'|w] r1]; cbn [fst snd] in *.
  - by apply IH.
  - rewrite run_deleteBranch_then. cbn [fst snd]. intros _.
    rewrite handle_faultless by done. cbn [serve].
    destruct Hr1 as [tip ->]. cbn [snd with_repo refs].
    apply lookup_delete_eq.
  - done.
Qed.

(** X6: with a service that answers every request, a replay that fails
    after the head of the branch was read removes the branch: its ref is
    gone from the repository, also when the branch existed before the
    replay began. *)
Theorem CherryPickCommitsOnBranch_failure_removes_branch
    (branch : Branch) (commits : list Commit) (r : Remote)
    (name headSHA : string) (head : RepositoryCommit) (e : error) :
  faults r = [] ->
  Name branch = Some name ->
  BCommit branch = Some head ->
  rc_SHA head = Some headSHA ->
  is_Some (objects r !! headSHA) ->
  is_Some (refs r !! (branchRefPrefix +:+ name)) ->
  fst (run (CherryPickCommitsOnBranch branch commits) r) = Err e ->
  refs (snd (run (CherryPickCommitsOnBranch branch commits) r))
    !! (branchRefPrefix +:+ name) = None.
Proof.
  intros Hf Hn Hb Hs [hc Hst] Hr. unfold CherryPickCommitsOnBranch.
  rewrite Hn, Hb. cbn [deref]. rewrite Hs.
  unfold getCommit at 1 2, andThen, call. cbn [bind run].
  rewrite (handle_GetCommit_faultless r headSHA hc) by done.
  cbn [bind run]. rewrite run_bind.
  pose proof (pickCommits_failure name commits hc r) as Hloop.
  destruct (run (pickCommits name commits hc) r) as [[final|e'|w] r1];
    cbn [fst snd run] in *; try done.
  intros _. by eapply Hloop.
Qed.

Lemma CherryPickCommitsOnBranch_failure_removes_branch_witness :
  refs (snd (run (CherryPickCommitsOnBranch Scenario.release
                    [Scenario.cB; Scenario.cC]) Conflicting.start))
    !! (branchRefPrefix +:+ "release") = None.
Proof.
  apply (CherryPickCommitsOnBranch_failure_removes_branch Scenario.release
           [Scenario.cB; Scenario.cC] Conflicting.start "release" "D"
           (Scenario.summary "D") Conflict).
  - reflexivity.
  - reflexivity.
  - reflexivity.
  - reflexivity.
  - by eexists.
  - by eexists.
  - vm_compute. reflexivity.
Defined.

(** X7: a commit without a hash makes the replay panic on the dereference
    of that hash, which comes after the sibling commit was created and the
    branch was pointed at it.  With a service that answers every request,
    the replay then ends in a nil-dereference panic with the branch left
    at the sibling commit (message "temp"); no deletion runs. *)
Theorem CherryPickCommitsOnBranch_commit_without_hash
    (branch : Branch) (c : Commit) (rest : list Commit) (r : Remote)
    (name headSHA : string) (head : RepositoryCommit) (hc p : Commit) :
  faults r = [] ->
  Name branch = Some name ->
  BCommit branch = Some head ->
  rc_SHA head = Some headSHA ->
  objects r !! headSHA = Some hc ->
  is_Some (refs r !! (branchRefPrefix +:+ name)) ->
  Parents c !! 0%nat = Some p ->
  is_Some (SHA p) ->
  SHA c = None ->
  fst (run (CherryPickCommitsOnBranch branch (c :: rest)) r)
  = Panic nilDereference
  ∧ ∃ s sibling,
      objects r !! s = None
      ∧ refs (snd (run (CherryPickCommitsOnBranch branch (c :: rest)) r))
          !! (branchRefPrefix +:+ name) = Some s
      ∧ objects (snd (run (CherryPickCommitsOnBranch branch (c :: rest)) r))
          !! s = Some sibling
      ∧ Message sibling = Some "temp"
      ∧ map entry_call
          (trace (CherryPickCommitsOnBranch branch (c :: rest)) r)
        = [GetCommit headSHA;
           CreateCommit {| SHA := None; Message := Some "temp";
                           CTree := GetTree hc;
                           Parents := [p] |};
           UpdateRef (branchRefPrefix +:+ name) s true].
Proof.
  intros Hf Hn Hb Hs Hst [tip Hr] Hp [ps Hps] Hc.
  unfold CherryPickCommitsOnBranch. rewrite Hn, Hb. cbn [deref]. rewrite Hs.
  unfold getCommit, andThen, call. cbn [bind run trace].
  rewrite (handle_GetCommit_faultless r headSHA hc) by done.
  cbn [bind run trace pickCommits]. unfold_client. rewrite Hp, Hc.
  cbn [bind run trace default].
  rewrite handle_faultless;
    [| done | by cbn [precheck forallb Parents]; rewrite Hps].
  cbn [serve bind run trace fst snd].
  rewrite handle_faultless by done.
  cbn [serve with_repo refs objects]. rewrite Hr.
  cbn [bind run trace fst snd map entry_call entry projT1 GetSHA SHA default
       with_repo refs objects].
  split; [done |].
  exists (fresh_string "c" (objects r)). eexists. split_and!.
  - apply fresh_string_fresh.
  - apply lookup_insert_eq.
  - apply lookup_insert_eq.
  - done.
  - done.
Qed.

Lemma CherryPickCommitsOnBranch_commit_without_hash_witness :
  fst (run (CherryPickCommitsOnBranch Scenario.release
              ({| SHA := None; Message := Some "Fix bug";
                  CTree := Scenario.tree "T1"; Parents := [stubOf "A"] |}
               :: [Scenario.cC])) Replayed.start)
  = Panic nilDereference
  ∧ ∃ s sibling,
      objects Replayed.start !! s = None
      ∧ refs (snd (run (CherryPickCommitsOnBranch Scenario.release
                          ({| SHA := None; Message := Some "Fix bug";
                              CTree := Scenario.tree "T1";
                              Parents := [stubOf "A"] |}
                           :: [Scenario.cC])) Replayed.start))
          !! (branchRefPrefix +:+ "release") = Some s
      ∧ objects (snd (run (CherryPickCommitsOnBranch Scenario.release
                             ({| SHA := None; Message := Some "Fix bug";
                                 CTree := Scenario.tree "T1";
                                 Parents := [stubOf "A"] |}
                              :: [Scenario.cC])) Replayed.start))
          !! s = Some sibling
      ∧ Message sibling = Some "temp"
      ∧ map entry_call
          (trace (CherryPickCommitsOnBranch Scenario.release
                    ({| SHA := None; Message := Some "Fix bug";
                        CTree := Scenario.tree "T1";
                        Parents := [stubOf "A"] |}
                     :: [Scenario.cC])) Replayed.start)
        = [GetCommit "D";
           CreateCommit {| SHA := None; Message := Some "temp";
                           CTree := GetTree Scenario.cD;
                           Parents := [stubOf "A"] |};
           UpdateRef (branchRefPrefix +:+ "release") s true].
Proof.
  apply (CherryPickCommitsOnBranch_commit_without_hash Scenario.release
           {| SHA := None; Message := Some "Fix bug";
              CTree := Scenario.tree "T1"; Parents := [stubOf "A"] |}
           [Scenario.cC] Replayed.start "release" "D"
           (Scenario.summary "D") Scenario.cD (stubOf "A")).
  - reflexivity.
  - reflexivity.
  - reflexivity.
  - reflexivity.
  - reflexivity.
  - by eexists.
  - reflexivity.
  - by eexists.
  - reflexivity.
Defined.

(** ** The tree of a replayed commit *)

Lemma handle_automerge c r : automerge (snd (handle c r)) = automerge r.
Proof.
  destruct (handle_inv c r) as (r0 & (_ & _ & Ha & _) & [-> | [-> _]]);
    [| done].
  destruct (serve_same_oracles c r0) as (-> & _). done.
Qed.

Lemma handle_Merge_tree base head r m r' :
  handle (Merge base head) r = (Ok m, r') ->
  ∃ tip tree mergeCommit,
    refs r !! (branchRefPrefix +:+ base) = Some tip
    ∧ automerge r tip head = Some tree
    ∧ objects r' !! rc_GetSHA m = Some mergeCommit
    ∧ CTree mergeCommit = Some tree
    ∧ objects r' = <[rc_GetSHA m := mergeCommit]> (objects r).
Proof.
  intros H. apply handle_ok_inv in H as (r0 & (Ho & Hr & Ha & _) & H).
  simpl in H. rewrite Ho, Hr, Ha in H.
  destruct (refs r !! (branchRefPrefix +:+ base)) as [tip|]; [| done].
  destruct (objects r !! head) as [hc|] eqn:Hh; [| done].
  destruct (automerge r tip head) as [tree|] eqn:Hm; [| done].
  injection H as <- <-. exists tip, tree. eexists.
  cbn [rc_GetSHA rc_SHA default with_repo objects].
  split_and!; [done | done | apply lookup_insert_eq | done | done].
Qed.

Lemma handle_keeps c r o r' k v :
  handle c r = (o, r') -> objects r !! k = Some v -> objects r' !! k = Some v.
Proof.
  intros H Hk. pose proof (handle_objects_mono c r k v Hk) as Hm.
  by rewrite H in Hm.
Qed.

(** X8: in a step that succeeds, the sibling commit carries the tree of
    the head the step started from, and the tree the step returns, which is
    also the tree of the final commit, is the tree the service computed for
    merging the replayed commit into the sibling. *)
Theorem cherryPickCommit_tree
    (branchName : string) (cherryCommit headBranchCommit : Commit)
    (r r' : Remote) (tree : option Tree) (sha : string) :
  run (cherryPickCommit branchName cherryCommit headBranchCommit) r
  = (Ok (tree, sha), r') ->
  ∃ s sibling cherrySHA final,
    SHA cherryCommit = Some cherrySHA
    ∧ objects r' !! s = Some sibling
    ∧ CTree sibling = GetTree headBranchCommit
    ∧ tree = automerge r s cherrySHA
    ∧ is_Some tree
    ∧ objects r' !! sha = Some final
    ∧ CTree final = tree.
Proof.
  unfold_client.
  destruct (Parents cherryCommit) as [|cherryParent ps] eqn:Hp; [done |].
  simpl. destruct (handle (CreateCommit _) r) as [[sib| |] r1] eqn:E1;
    simpl; try done.
  destruct (handle (UpdateRef _ _ _) r1) as [[u1| |] r2] eqn:E2;
    simpl; try done.
  destruct (SHA cherryCommit) as [cherrySHA|] eqn:Hc; [| done].
  simpl. destruct (handle (Merge _ _) r2) as [[m| |] r3] eqn:E3;
    simpl; try done.
  destruct (handle (GetCommit _) r3) as [[mc| |] r4] eqn:E4;
    simpl; try done.
  destruct (SHA headBranchCommit) as [headSHA|] eqn:Hh; [| done].
  simpl. destruct (handle (GetCommit _) r4) as [[upd| |] r5] eqn:E5;
    simpl; try done.
  destruct (Message cherryCommit) as [message|] eqn:Hm; [| done].
  simpl. destruct (handle (CreateCommit _) r5) as [[fin| |] r6] eqn:E6;
    simpl; try done.
  destruct (handle (UpdateRef _ _ _) r6) as [[u2| |] r7] eqn:E7;
    simpl; try done.
  intros [= <- <- <-].
  assert (Hsib : objects r7 !! GetSHA sib = Some sib).
  { eapply handle_keeps; [exact E7 |]. eapply handle_keeps; [exact E6 |].
    eapply handle_keeps; [exact E5 |]. eapply handle_keeps; [exact E4 |].
    eapply handle_keeps; [exact E3 |]. eapply handle_keeps; [exact E2 |].
    by apply handle_CreateCommit_stored in E1 as (St1 & _). }
  pose proof (handle_automerge (CreateCommit
                {| SHA := None; Message := Some "temp";
                   CTree := GetTree headBranchCommit;
                   Parents := [cherryParent] |}) r) as A1.
  rewrite E1 in A1. simpl in A1.
  pose proof (handle_automerge (UpdateRef (branchRefPrefix +:+ branchName)
                                  (GetSHA sib) true) r1) as A2.
  rewrite E2 in A2. simpl in A2.
  apply handle_CreateCommit_stored in E1 as (St1 & F1 & R1 & S1 & O1).
  apply handle_UpdateRef_ok in E2 as (_ & O2 & R2).
  apply handle_Merge_tree in E3 as (tip & mt & mcv & T3 & A3 & G3 & C3 & O3).
  apply handle_GetCommit_ok in E4 as (G4 & O4 & R4).
  apply handle_GetCommit_ok in E5 as (G5 & O5 & R5).
  apply handle_CreateCommit_stored in E6 as (St6 & F6 & R6 & S6 & O6).
  apply handle_UpdateRef_ok in E7 as (_ & O7 & R7).
  simpl in *.
  rewrite R2, lookup_insert_eq in T3. injection T3 as <-.
  rewrite G3 in G4. injection G4 as <-.
  rewrite A2, A1 in A3.
  exists (GetSHA sib), sib, cherrySHA, fin. split_and!.
  - done.
  - done.
  - by rewrite S1.
  - unfold GetTree. by rewrite C3, A3.
  - unfold GetTree. rewrite C3. by eexists.
  - by rewrite O7.
  - by rewrite S6.
Qed.

Lemma cherryPickCommit_tree_witness :
  ∃ s sibling cherrySHA final,
    SHA Scenario.cB = Some cherrySHA
    ∧ objects (snd (run (cherryPickCommit "release" Scenario.cB Scenario.cD)
                      Replayed.start)) !! s = Some sibling
    ∧ CTree sibling = GetTree Scenario.cD
    ∧ Scenario.tree "c+B" = automerge Replayed.start s cherrySHA
    ∧ is_Some (Scenario.tree "c+B")
    ∧ objects (snd (run (cherryPickCommit "release" Scenario.cB Scenario.cD)
                      Replayed.start)) !! "c0" = Some final
    ∧ CTree final = Scenario.tree "c+B".
Proof.
  apply (cherryPickCommit_tree "release" Scenario.cB Scenario.cD
           Replayed.start
           (snd (run (cherryPickCommit "release" Scenario.cB Scenario.cD)
                   Replayed.start))
           (Scenario.tree "c+B") "c0").
  apply injective_projections; [vm_compute; reflexivity | reflexivity].
Defined.

(** ** What the resolver returns, whatever the service does *)

Lemma listPages_sound branchName :
  ∀ fuel page acc r L,
    fst (run (listPages fuel branchName page acc) r) = Some (Ok L) ->
    forallb entry_ok (trace (listPages fuel branchName page acc) r) = true.
Proof.
  induction fuel as [|fuel IH]; intros page acc r L; [done |].
  cbn [listPages]. unfold call. cbn [bind run trace].
  destruct (handle (ListCommits branchName page perPage) r)
    as [[[currCommits resp]|e|w] r1]; cbn [bind run trace fst]; try done.
  destruct (NextPage resp =? 0)%nat; [done |].
  intros H. cbn [forallb entry_ok entry projT2 andb]. by eapply IH.
Qed.

Lemma matchDiff_sound repoCommit :
  ∀ diffCommits acc r cs,
    fst (run (matchDiff repoCommit diffCommits acc) r) = Ok cs ->
    (∃ new, cs = acc ++ new
            ∧ Forall (λ c, length (Parents c) = 1%nat) new)
    ∧ forallb entry_ok (trace (matchDiff repoCommit diffCommits acc) r)
      = true.
Proof.
  induction diffCommits as [|d rest IH]; intros acc r cs.
  - intros [= <-]. split; [| done]. exists []. by rewrite app_nil_r.
  - cbn [matchDiff].
    destruct (String.eqb (rc_GetSHA d) (rc_GetSHA repoCommit)); [| apply IH].
    unfold getCommit, andThen, call. cbn [bind run trace].
    destruct (handle (GetCommit (rc_GetSHA repoCommit)) r)
      as [[commit|e|w] r1]; cbn [bind run trace fst]; try done.
    destruct (length (Parents commit) =? 1)%nat eqn:Hlen; cbn [negb];
      [| done].
    intros H. destruct (IH _ _ _ H) as [(new & -> & Hnew) Hok].
    split.
    + exists (commit :: new). rewrite <- app_assoc. split; [done |].
      constructor; [by apply Nat.eqb_eq | done].
    + cbn [forallb entry_ok entry projT2 andb]. done.
Qed.

Lemma collectCommits_sound diffCommits :
  ∀ repoCommits acc r cs,
    fst (run (collectCommits repoCommits diffCommits acc) r) = Ok cs ->
    (∃ new, cs = acc ++ new
            ∧ Forall (λ c, length (Parents c) = 1%nat) new)
    ∧ forallb entry_ok
        (trace (collectCommits repoCommits diffCommits acc) r)
      = true.
Proof.
  induction repoCommits as [|rc rest IH]; intros acc r cs.
  - intros [= <-]. split; [| done]. exists []. by rewrite app_nil_r.
  - cbn [collectCommits]. unfold andThen. rewrite run_bind, trace_bind.
    pose proof (matchDiff_sound rc diffCommits acc r) as Hstep.
    destruct (run (matchDiff rc diffCommits acc) r) as [[cs1|e|w] r1];
      cbn [fst snd] in *; try done.
    intros H. destruct (Hstep _ eq_refl) as [(new1 & -> & Hnew1) Hok1].
    destruct (IH _ _ _ H) as [(new2 & -> & Hnew2) Hok2].
    split.
    + exists (new1 ++ new2). rewrite app_assoc. split; [done |].
      by apply Forall_app.
    + by rewrite forallb_app, Hok1, Hok2.
Qed.

(** X9: whatever the service answers, a list returned by the resolver
    holds only commits with exactly one parent, and was obtained without a
    single failed request: after a failure, or after a commit with another
    number of parents, no list is returned. *)
Theorem GetBranchCommits_sound
    (fuel : nat) (branchName : string) (r : Remote) (cs : list Commit) :
  fst (run (GetBranchCommits fuel branchName) r) = Some (Ok cs) ->
  Forall (λ c, length (Parents c) = 1%nat) cs
  ∧ forallb entry_ok (trace (GetBranchCommits fuel branchName) r) = true.
Proof.
  unfold GetBranchCommits, getBranchCommits. rewrite run_bind, trace_bind.
  pose proof (listPages_sound branchName fuel 0 [] r) as Hlist.
  destruct (run (listPages fuel branchName 0 []) r)
    as [[[repoCommits|e|w]|] r1]; cbn [fst snd] in *; try done.
  rewrite run_bind, trace_bind. unfold andThen, call. cbn [bind run trace].
  destruct (handle (CompareCommits "master" branchName) r1)
    as [[comparison|e|w] r2]; cbn [bind run trace fst snd]; try done.
  pose proof (collectCommits_sound comparison repoCommits [] r2) as Hcol.
  destruct (run (collectCommits repoCommits comparison []) r2)
    as [[cs'|e|w] r3]; cbn [fst snd run trace] in *; try done.
  intros [= <-]. destruct (Hcol _ eq_refl) as [(new & -> & Hnew) Hok].
  split; [done |].
  rewrite forallb_app, (Hlist _ eq_refl), app_nil_r.
  cbn [forallb entry_ok entry projT2 andb]. by rewrite Hok.
Qed.

Lemma GetBranchCommits_sound_witness :
  Forall (λ c, length (Parents c) = 1%nat) [Scenario.cB; Scenario.cC]
  ∧ forallb entry_ok (trace (GetBranchCommits 1 "feature") Replayed.start)
    = true.
Proof.
  apply (GetBranchCommits_sound 1 "feature" Replayed.start
           [Scenario.cB; Scenario.cC]).
  vm_compute. reflexivity.
Defined.

(** ** The order of the resolved commits *)

Lemma map_reverse {A B} (f : A -> B) (l : list A) :
  map f (reverse l) = reverse (map f l).
Proof. exact (fmap_reverse f l). Qed.

(** X10: the resolver returns the commits in the order in which the service
    enumerates the branch, not in the order of the comparison.  When the
    comparison reports the commits [cs] oldest first and the enumeration
    lists them newest first (followed by older commits that the comparison
    does not report), the list returned is [cs] reversed: newest first. *)
Theorem GetBranchCommits_keeps_enumeration_order
    (fuel : nat) (branchName : string) (r : Remote)
    (older : list RepositoryCommit) (cs : list Commit) :
  faults r = [] ->
  stored (objects r) (map GetSHA cs) cs ->
  Forall (λ c, length (Parents c) = 1%nat) cs ->
  NoDup (map GetSHA cs) ->
  comparison r "master" branchName = Some (map summaryOf cs) ->
  listing r branchName = Some (reverse (map summaryOf cs) ++ older) ->
  Forall (λ o, rc_GetSHA o ∉ map GetSHA cs) older ->
  (length (reverse (map summaryOf cs) ++ older) < fuel * perPage)%nat ->
  run (GetBranchCommits fuel branchName) r = (Some (Ok (reverse cs)), r).
Proof.
  intros Hf Hst Hsingle Hnd HD HL Hold Hfuel.
  assert (Hshas : map rc_GetSHA (map summaryOf cs) = map GetSHA cs)
    by (by rewrite map_map).
  rewrite (GetBranchCommits_faultless fuel branchName r _ _ (reverse cs)
             Hf HL Hfuel HD).
  - replace (forallb singleParent (reverse cs)) with true; [done |].
    symmetry. apply forallb_forall. intros c Hc.
    apply list_elem_of_In in Hc. rewrite elem_of_reverse in Hc.
    rewrite Forall_forall in Hsingle. unfold singleParent.
    apply Nat.eqb_eq. exact (Hsingle c Hc).
  - rewrite selected_app, (selected_absent older); [| by rewrite Hshas].
    rewrite app_nil_r, <- map_reverse, selected_once.
    + rewrite map_reverse. by apply Forall2_reverse.
    + by rewrite Hshas.
    + rewrite Hshas. apply Forall_forall. intros c Hc.
      rewrite elem_of_reverse in Hc. apply list_elem_of_fmap. by exists c.
Qed.

Lemma GetBranchCommits_keeps_enumeration_order_witness :
  run (GetBranchCommits 1 "feature") NewestFirst.start
  = (Some (Ok (reverse [Scenario.cB; Scenario.cC])), NewestFirst.start).
Proof.
  apply (GetBranchCommits_keeps_enumeration_order 1 "feature"
           NewestFirst.start [Scenario.summary "A"]
           [Scenario.cB; Scenario.cC]).
  - reflexivity.
  - repeat constructor.
  - repeat constructor.
  - simpl. apply NoDup_cons. split; [| apply NoDup_singleton].
    intros H. apply list_elem_of_singleton in H. discriminate H.
  - reflexivity.
  - reflexivity.
  - repeat constructor. simpl. intros H.
    apply elem_of_cons in H as [H | H]; [discriminate H |].
    apply list_elem_of_singleton in H. discriminate H.
  - unfold perPage. simpl. lia.
Defined.

(** ** The pages of an enumeration *)

Lemma listPages_trace branchName r L :
  faults r = [] -> listing r branchName = Some L ->
  ∀ fuel page acc,
    ((Nat.max page 1 - 1) * perPage ≤ length L)%nat ->
    (length L < (Nat.max page 1 - 1 + fuel) * perPage)%nat ->
    map entry_call (trace (listPages fuel branchName page acc) r)
    = ListCommits branchName page perPage
      :: map (λ q, ListCommits branchName q perPage)
           (seq (S (Nat.max page 1))
              ((length L - 1) / perPage + 1 - Nat.max page 1)).
Proof.
  intros Hf HL. induction fuel as [|fuel IH]; intros page acc Hlo Hhi.
  - unfold perPage in *. lia.
  - cbn [listPages]. unfold call. cbn [bind run trace].
    rewrite handle_faultless by done. cbn [serve]. rewrite HL.
    unfold pageOf. cbn [bind trace NextPage map entry_call entry projT1].
    f_equal. set (p := Nat.max page 1) in *.
    assert (Hp : (1 ≤ p)%nat) by (unfold p; lia).
    destruct (p * perPage <? length L)%nat eqn:Emore.
    + apply Nat.ltb_lt in Emore. cbn [Nat.eqb].
      rewrite (IH (S p) _); [| unfold perPage in *; lia ..].
      replace (Nat.max (S p) 1) with (S p) by lia.
      assert (Hdiv : (p ≤ (length L - 1) / perPage)%nat).
      { apply Nat.div_le_lower_bound; unfold perPage in *; lia. }
      replace ((length L - 1) / perPage + 1 - p)%nat
        with (S ((length L - 1) / perPage + 1 - S p)) by lia.
      done.
    + apply Nat.ltb_ge in Emore. cbn [Nat.eqb trace map].
      assert (Hdiv : ((length L - 1) / perPage < p)%nat).
      { apply Nat.Div0.div_lt_upper_bound; unfold perPage in *; lia. }
      by replace ((length L - 1) / perPage + 1 - p)%nat with 0%nat by lia.
Qed.

(** X11: with a service that answers every request and fuel for the pages,
    the enumeration of a branch returns all its commits in the order of the
    service, unchanged repository; it asks for page 0 first and then for
    the pages 2, 3, ... that the service announces, one request per page of
    [perPage] commits. *)
Theorem getBranchCommits_pages
    (fuel : nat) (branchName : string) (r : Remote)
    (L : list RepositoryCommit) :
  faults r = [] ->
  listing r branchName = Some L ->
  (length L < fuel * perPage)%nat ->
  run (getBranchCommits fuel branchName) r = (Some (Ok L), r)
  ∧ map entry_call (trace (getBranchCommits fuel branchName) r)
    = ListCommits branchName 0 perPage
      :: map (λ q, ListCommits branchName q perPage)
           (seq 2 ((length L - 1) / perPage)).
Proof.
  intros Hf HL Hfuel. split; [by apply getBranchCommits_faultless |].
  unfold getBranchCommits.
  rewrite (listPages_trace branchName r L Hf HL fuel 0 []); [| simpl; lia ..].
  cbn [Nat.max]. do 3 f_equal. lia.
Qed.

Lemma getBranchCommits_pages_witness :
  run (getBranchCommits 1 "feature") Replayed.start
  = (Some (Ok [Scenario.summary "A"; Scenario.summary "B";
               Scenario.summary "C"]), Replayed.start)
  ∧ map entry_call (trace (getBranchCommits 1 "feature") Replayed.start)
    = ListCommits "feature" 0 perPage
      :: map (λ q, ListCommits "feature" q perPage)
           (seq 2 ((length [Scenario.summary "A"; Scenario.summary "B";
                            Scenario.summary "C"] - 1) / perPage)).
Proof.
  apply (getBranchCommits_pages 1 "feature" Replayed.start
           [Scenario.summary "A"; Scenario.summary "B";
            Scenario.summary "C"]).
  - reflexivity.
  - reflexivity.
  - unfold perPage. simpl. lia.
Defined.
